(** * Resilience calculator and propagation graph builder

    A shallow embedding of [models.py], [inmemory_repository.py] and
    [services.py].  Python dictionaries are finite maps, Python lists are
    lists, Python [int] is [Z], Python [str] is [string] ordered
    lexicographically by character code ([String.ltb]).  A method of the
    repository or of a service is a computation over the repository object
    that may raise: it takes the repository, and returns the repository
    together with either an exception or a value. *)

From Stdlib Require Import ZArith String Ascii.
From stdpp Require Import base gmap strings list fin_maps.

Local Open Scope Z_scope.

(** ** models.py *)

Module DungeonCompletion.
Record t := mk {
  character_id : string;
  dungeon_name : string;
  difficulty_level : Z;
  first_completed : string;
  run_id : string
}.
End DungeonCompletion.

Module PropagationEdge.
Record t := mk {
  source : string;
  target : string;
  dungeon : string;
  run_id : string
}.
End PropagationEdge.

(** ** inmemory_repository.py: the object *)

Record InMemoryDungeonRepository := {
  (* character_id -> dungeon_name -> level -> DungeonCompletion *)
  _completions : gmap string (gmap string (gmap Z DungeonCompletion.t));
  (* run_id -> list of character_ids *)
  _rosters : gmap string (list string)
}.

(** ** Computations over the repository, with exceptions *)

Inductive exn := ValueError.

Definition M (A : Type) : Type :=
  InMemoryDungeonRepository → (exn + A) * InMemoryDungeonRepository.

Definition ret {A} (a : A) : M A := λ self, (inr a, self).

Definition bind {A B} (m : M A) (k : A → M B) : M B :=
  λ self,
    match m self with
    | (inl e, self') => (inl e, self')
    | (inr a, self') => k a self'
    end.

Definition get_self : M InMemoryDungeonRepository := λ self, (inr self, self).

Definition lift_exn {A} (r : exn + A) : M A := λ self, (r, self).

Notation "x <~ c ;; k" := (bind c (λ x, k))
  (at level 100, c at next level, right associativity, only parsing).

(** [for x in xs: acc = body x acc], the loop state threaded through. *)
Fixpoint for_each {A S} (xs : list A) (body : A → S → M S) (acc : S) : M S :=
  match xs with
  | [] => ret acc
  | x :: rest => acc' <~ body x acc;; for_each rest body acc'
  end.

(** ** Python built-ins used by the services *)

(** [min(xs)] on integers: raises [ValueError] on an empty sequence. *)
Definition py_min (xs : list Z) : exn + Z :=
  match xs with
  | [] => inl ValueError
  | x :: rest => inr (foldl Z.min x rest)
  end.

(** [max(xs)] on strings: keeps the first maximal item. *)
Definition py_max (xs : list string) : exn + string :=
  match xs with
  | [] => inl ValueError
  | x :: rest => inr (foldl (λ best s, if String.ltb best s then s else best) x rest)
  end.

(** [s.split(sep)[0]] for a one-character separator. *)
Fixpoint split_head (sep : ascii) (s : string) : string :=
  match s with
  | EmptyString => EmptyString
  | String c rest =>
      if Ascii.eqb c sep then EmptyString else String c (split_head sep rest)
  end.

(** [not x] for [x : Optional[str]]: [None] and the empty string are falsy. *)
Definition py_not (x : option string) : bool :=
  match x with
  | None => true
  | Some EmptyString => true
  | Some _ => false
  end.

(** ** inmemory_repository.py: data loading

    [_load], from the rows the two SELECT statements fetched:
    [self._completions[c][d][l] = comp] for every statistics row, and
    [temp[run_id].append(character_id)] for every roster row. *)

Definition load_completion (comp : DungeonCompletion.t)
    (completions : gmap string (gmap string (gmap Z DungeonCompletion.t)))
  : gmap string (gmap string (gmap Z DungeonCompletion.t)) :=
  let c := DungeonCompletion.character_id comp in
  let d := DungeonCompletion.dungeon_name comp in
  let by_dungeon := default ∅ (completions !! c) in
  let by_level := default ∅ (by_dungeon !! d) in
  <[c := <[d := <[DungeonCompletion.difficulty_level comp := comp]> by_level]> by_dungeon]>
    completions.

Definition load_roster_row (row : string * string)
    (temp : gmap string (list string)) : gmap string (list string) :=
  <[row.1 := default [] (temp !! row.1) ++ [row.2]]> temp.

Definition load (stats_rows : list DungeonCompletion.t)
    (roster_rows : list (string * string)) : InMemoryDungeonRepository :=
  {| _completions := foldl (λ m comp, load_completion comp m) ∅ stats_rows;
     _rosters := foldl (λ m row, load_roster_row row m) ∅ roster_rows |}.

(** ** inmemory_repository.py: the queries

    Every query goes through [dict.get], which returns the default without
    storing it (unlike indexing the [defaultdict]); none assigns to a field
    of [self]. *)

Definition get_completion (character_id dungeon : string) (level : Z)
  : M (option DungeonCompletion.t) :=
  self <~ get_self;;
  ret (default ∅ (default ∅ (_completions self !! character_id) !! dungeon) !! level).

Definition has_higher_completion (character_id dungeon : string) (level : Z)
    (before : string) : M bool :=
  self <~ get_self;;
  let dungeon_levels := default ∅ (default ∅ (_completions self !! character_id) !! dungeon) in
  ret (existsb (λ '(comp_level, comp),
                  (level <? comp_level)
                  && String.ltb (DungeonCompletion.first_completed comp) before)
               (map_to_list dungeon_levels)).

(** Body and loop of [for level, comp in dungeon_levels.items()] in
    [get_max_level_by_dungeon]. *)
Definition best_step (min_level max_level : Z) (before : string)
    (best : Z) (item : Z * DungeonCompletion.t) : Z :=
  let '(level, comp) := item in
  if (min_level <=? level) && (level <=? max_level)
     && String.ltb (DungeonCompletion.first_completed comp) before
  then Z.max best level else best.

Definition best_level (min_level max_level : Z) (before : string)
    (items : list (Z * DungeonCompletion.t)) : Z :=
  foldl (best_step min_level max_level before) 0 items.

(** Body of [for dungeon in dungeons] in [get_max_level_by_dungeon]. *)
Definition max_level_step
    (char_completions : gmap string (gmap Z DungeonCompletion.t))
    (max_level min_level : Z) (before : string)
    (result : gmap string Z) (dungeon : string) : gmap string Z :=
  let dungeon_levels := default ∅ (char_completions !! dungeon) in
  let best := best_level min_level max_level before (map_to_list dungeon_levels) in
  if 0 <? best then <[dungeon := best]> result else result.

Definition get_max_level_by_dungeon (character_id : string) (dungeons : list string)
    (max_level min_level : Z) (before : string) : M (gmap string Z) :=
  self <~ get_self;;
  let char_completions := default ∅ (_completions self !! character_id) in
  ret (foldl (max_level_step char_completions max_level min_level before) ∅ dungeons).

(** Body of [for level, comp in dungeon_levels.items()] in
    [get_min_completion_date]. *)
Definition earliest_step (min_level : Z) (earliest : option string)
    (item : Z * DungeonCompletion.t) : option string :=
  let '(level, comp) := item in
  if min_level <=? level then
    match earliest with
    | None => Some (DungeonCompletion.first_completed comp)
    | Some e =>
        if String.ltb (DungeonCompletion.first_completed comp) e
        then Some (DungeonCompletion.first_completed comp)
        else earliest
    end
  else earliest.

Definition get_min_completion_date (character_id dungeon : string) (min_level : Z)
  : M (option string) :=
  self <~ get_self;;
  let dungeon_levels := default ∅ (default ∅ (_completions self !! character_id) !! dungeon) in
  ret (foldl (earliest_step min_level) None (map_to_list dungeon_levels)).

Definition get_roster (run_id : string) : M (list string) :=
  self <~ get_self;;
  ret (default [] (_rosters self !! run_id)).

(** ** services.py: ResilienceCalculator *)

Definition default_min_level : Z := 18.

Definition calculate_resilience_level (character_id timestamp : string)
    (dungeons : list string) (max_level min_level : Z) : M Z :=
  max_levels <~ get_max_level_by_dungeon character_id dungeons max_level min_level timestamp;;
  (* If not all dungeons completed, resilience is 0 *)
  if (size max_levels <? length dungeons)%nat then ret 0
  else lift_exn (py_min ((map_to_list max_levels).*2)).

(** The loop of [find_resilience_achievement_date] from the dungeons still to
    visit, with the dates collected so far; an early [return None] ends it. *)
Fixpoint find_dates (character_id : string) (min_level : Z) (dungeons : list string)
    (completion_dates : list string) : M (option string) :=
  match dungeons with
  | [] =>
      (* Latest completion determines when resilience was achieved *)
      latest_timestamp <~ lift_exn (py_max completion_dates);;
      ret (Some (split_head "T" latest_timestamp))
  | dungeon :: rest =>
      iso_timestamp <~ get_min_completion_date character_id dungeon min_level;;
      match iso_timestamp with
      | Some ts =>
          if py_not iso_timestamp then ret None
          else find_dates character_id min_level rest (completion_dates ++ [ts])
      | None => ret None  (* Didn't complete all dungeons at required level *)
      end
  end.

Definition find_resilience_achievement_date (character_id : string) (min_level : Z)
    (dungeons : list string) : M (option string) :=
  find_dates character_id min_level dungeons [].

(** ** services.py: PropagationGraphBuilder *)

(** The pair (resilient_edges, non_resilient_edges) under construction. *)
Definition edge_lists : Type := list PropagationEdge.t * list PropagationEdge.t.

(** Body of [for other_id in roster]. *)
Definition roster_body (character_id dungeon : string) (completion : DungeonCompletion.t)
    (is_resilient : bool) (dungeons : list string) (target_level max_level : Z)
    (other_id : string) (edges : edge_lists) : M edge_lists :=
  if String.eqb other_id character_id then ret edges
  else
    other_resilience <~ calculate_resilience_level other_id
        (DungeonCompletion.first_completed completion) dungeons max_level default_min_level;;
    if target_level <=? other_resilience then
      let edge := PropagationEdge.mk other_id character_id dungeon
                    (DungeonCompletion.run_id completion) in
      if is_resilient then ret (edges.1 ++ [edge], edges.2)
      else ret (edges.1, edges.2 ++ [edge])
    else ret edges.

(** Body of [for dungeon in dungeons]. *)
Definition dungeon_body (character_id : string) (is_resilient : bool)
    (dungeons : list string) (target_level max_level : Z)
    (dungeon : string) (edges : edge_lists) : M edge_lists :=
  completion <~ get_completion character_id dungeon target_level;;
  match completion with
  | None => ret edges
  | Some completion =>
      (* Skip if completed higher level earlier *)
      higher <~ has_higher_completion character_id dungeon target_level
                  (DungeonCompletion.first_completed completion);;
      if higher then ret edges
      else
        (* Check group members *)
        roster <~ get_roster (DungeonCompletion.run_id completion);;
        for_each roster
          (roster_body character_id dungeon completion is_resilient
             dungeons target_level max_level)
          edges
  end.

(** Body of [for character_id in characters]. *)
Definition character_body (resilient_timestamps : gmap string string)
    (dungeons : list string) (target_level max_level : Z)
    (character_id : string) (edges : edge_lists) : M edge_lists :=
  let is_resilient := bool_decide (is_Some (resilient_timestamps !! character_id)) in
  for_each dungeons
    (dungeon_body character_id is_resilient dungeons target_level max_level)
    edges.

(** [tqdm(characters, ...)] yields the characters in order and only reports
    progress. *)
Definition build_edges (characters : list string) (resilient_timestamps : gmap string string)
    (dungeons : list string) (target_level max_level : Z) : M edge_lists :=
  for_each characters
    (character_body resilient_timestamps dungeons target_level max_level)
    ([], []).

(** ** Vocabulary of the specification *)

(** [self._completions[c][d][l]] exists and is [comp]. *)
Definition stored (self : InMemoryDungeonRepository) (c d : string) (l : Z)
    (comp : DungeonCompletion.t) : Prop :=
  ∃ by_dungeon by_level,
    _completions self !! c = Some by_dungeon
    ∧ by_dungeon !! d = Some by_level
    ∧ by_level !! l = Some comp.

(** The data model makes a difficulty level a positive integer; what the
    results below need of it is that no stored level is negative. *)
Definition levels_nonnegative (self : InMemoryDungeonRepository) : Prop :=
  ∀ c d l comp, stored self c d l comp → 0 ≤ l.

(** Character [c] completed dungeon [d] at level [l] within [lo, hi], first
    strictly before [ts]. *)
Definition qualifies (self : InMemoryDungeonRepository) (c d : string)
    (lo hi : Z) (ts : string) (l : Z) : Prop :=
  ∃ comp, stored self c d l comp ∧ lo ≤ l ≤ hi
          ∧ String.ltb (DungeonCompletion.first_completed comp) ts = true.

(** [m] is the highest qualifying level of [c] in [d]. *)
Definition max_qualifying (self : InMemoryDungeonRepository) (c d : string)
    (lo hi : Z) (ts : string) (m : Z) : Prop :=
  qualifies self c d lo hi ts m ∧ ∀ l, qualifies self c d lo hi ts l → l ≤ m.

(** [v] is the least of the per-dungeon highest qualifying levels. *)
Definition min_of_maxima (self : InMemoryDungeonRepository) (c : string)
    (ds : list string) (lo hi : Z) (ts : string) (v : Z) : Prop :=
  (∃ d, d ∈ ds ∧ max_qualifying self c d lo hi ts v)
  ∧ ∀ d m, d ∈ ds → max_qualifying self c d lo hi ts m → v ≤ m.

(** Data-model invariant: [first_completed] is an ISO 8601 timestamp,
    [YYYY-MM-DDT...] (as in 2025-09-24T20:38:11.000Z). *)
Definition is_digit (a : ascii) : bool :=
  (48 <=? nat_of_ascii a)%nat && (nat_of_ascii a <=? 57)%nat.

Definition iso8601 (s : string) : bool :=
  match s with
  | String y1 (String y2 (String y3 (String y4 (String dash1
      (String m1 (String m2 (String dash2 (String d1 (String d2
        (String sep _)))))))))) =>
      forallb is_digit [y1; y2; y3; y4; m1; m2; d1; d2]
      && Ascii.eqb dash1 "-" && Ascii.eqb dash2 "-" && Ascii.eqb sep "T"
  | _ => false
  end.

Definition timestamps_iso (self : InMemoryDungeonRepository) : Prop :=
  ∀ c d l comp, stored self c d l comp →
    iso8601 (DungeonCompletion.first_completed comp) = true.

(** The day of a timestamp: its prefix [YYYY-MM-DD]. *)
Definition day_of (t : string) : string := substring 0 10 t.

(** Character [c] has a completion of [d] at a level [>= lo]. *)
Definition completed_at_least (self : InMemoryDungeonRepository) (c d : string)
    (lo : Z) : Prop :=
  ∃ l comp, stored self c d l comp ∧ lo ≤ l.

(** [t] is the earliest first-completion time of [c] in [d] at a level [>= lo]. *)
Definition earliest_completion (self : InMemoryDungeonRepository) (c d : string)
    (lo : Z) (t : string) : Prop :=
  (∃ l comp, stored self c d l comp ∧ lo ≤ l
             ∧ DungeonCompletion.first_completed comp = t)
  ∧ ∀ l comp, stored self c d l comp → lo ≤ l →
      String.leb t (DungeonCompletion.first_completed comp) = true.

(** [t] is the latest of the per-dungeon earliest times. *)
Definition latest_of_earliest (self : InMemoryDungeonRepository) (c : string)
    (ds : list string) (lo : Z) (t : string) : Prop :=
  (∃ d, d ∈ ds ∧ earliest_completion self c d lo t)
  ∧ ∀ d t', d ∈ ds → earliest_completion self c d lo t' → String.leb t' t = true.

(** Supersession: [c] has a completion of [d] above [level] whose first
    completion is strictly earlier than that of [comp]. *)
Definition superseded (self : InMemoryDungeonRepository) (c d : string)
    (level : Z) (comp : DungeonCompletion.t) : Prop :=
  ∃ l' comp', stored self c d l' comp' ∧ level < l'
    ∧ String.ltb (DungeonCompletion.first_completed comp')
                 (DungeonCompletion.first_completed comp) = true.

(** [o]'s resilience over [ds], computed at time [ts] with the default
    minimum level, is at least [level]. *)
Definition resilient_at (self : InMemoryDungeonRepository) (o ts : string)
    (ds : list string) (level hi : Z) : Prop :=
  ∃ v, calculate_resilience_level o ts ds hi default_min_level self = (inr v, self)
       ∧ level ≤ v.

(** Edge [e] is the one the roster scan of [comp], a completion of [d] by
    [c], builds for the roster member [o]. *)
Definition candidate_edge (self : InMemoryDungeonRepository) (c d : string)
    (comp : DungeonCompletion.t) (ds : list string) (level hi : Z)
    (o : string) (e : PropagationEdge.t) : Prop :=
  o ≠ c
  ∧ e = PropagationEdge.mk o c d (DungeonCompletion.run_id comp)
  ∧ resilient_at self o (DungeonCompletion.first_completed comp) ds level hi.

(** Edge [e] records a roster member of the run of [comp], other than the
    target, that was resilient when the target first completed [comp]. *)
Definition edge_from (self : InMemoryDungeonRepository) (ds : list string)
    (level hi : Z) (comp : DungeonCompletion.t) (e : PropagationEdge.t) : Prop :=
  PropagationEdge.source e ∈ default [] (_rosters self !! DungeonCompletion.run_id comp)
  ∧ PropagationEdge.source e ≠ PropagationEdge.target e
  ∧ PropagationEdge.run_id e = DungeonCompletion.run_id comp
  ∧ resilient_at self (PropagationEdge.source e)
      (DungeonCompletion.first_completed comp) ds level hi.

(** Edge [e] stems from its target's completion of its dungeon at exactly
    [level], a completion that is not superseded. *)
Definition emitted (self : InMemoryDungeonRepository) (ds : list string)
    (level hi : Z) (e : PropagationEdge.t) : Prop :=
  ∃ comp,
    stored self (PropagationEdge.target e) (PropagationEdge.dungeon e) level comp
    ∧ ¬ superseded self (PropagationEdge.target e) (PropagationEdge.dungeon e) level comp
    ∧ edge_from self ds level hi comp e.

(** A decision procedure for invariants of the stored completions. *)
Definition all_stored (P : Z → DungeonCompletion.t → bool)
    (self : InMemoryDungeonRepository) : bool :=
  forallb (λ by_dungeon : string * gmap string (gmap Z DungeonCompletion.t),
     forallb (λ by_level : string * gmap Z DungeonCompletion.t,
        forallb (λ item : Z * DungeonCompletion.t, P item.1 item.2)
                (map_to_list by_level.2))
             (map_to_list by_dungeon.2))
          (map_to_list (_completions self)).

(** ** A small season

    Character A cleared d1 at +20, d2 at +21 and +22 and d3 at +20 in the
    first days of January; B cleared d1 at +20 in February, in a run with A,
    and had cleared d2 at +22 before clearing it at +20; C has one run. *)

Definition sample_rows : list DungeonCompletion.t :=
  [ DungeonCompletion.mk "A" "d1" 20 "2025-01-01T12:00:00.000Z" "r1";
    DungeonCompletion.mk "A" "d2" 21 "2025-01-02T12:00:00.000Z" "r2";
    DungeonCompletion.mk "A" "d2" 22 "2025-01-02T13:00:00.000Z" "r3";
    DungeonCompletion.mk "A" "d3" 20 "2025-01-03T12:00:00.000Z" "r4";
    DungeonCompletion.mk "B" "d1" 20 "2025-02-01T12:00:00.000Z" "r5";
    DungeonCompletion.mk "B" "d2" 22 "2025-02-02T12:00:00.000Z" "r6";
    DungeonCompletion.mk "B" "d2" 20 "2025-02-03T12:00:00.000Z" "r7";
    DungeonCompletion.mk "C" "d1" 19 "2025-02-01T12:00:00.000Z" "r5" ]%string.

Definition sample_roster_rows : list (string * string) :=
  [ ("r1", "A"); ("r5", "A"); ("r5", "B"); ("r5", "C"); ("r7", "A"); ("r7", "B") ]%string.

Definition sample_repo : InMemoryDungeonRepository :=
  load sample_rows sample_roster_rows.

Definition sample_dungeons : list string := [ "d1"; "d2"; "d3" ]%string.

Definition sample_now : string := "2025-09-24T20:38:11.000Z".

(** ** inmemory_repository.py: the remaining query

    [list(self._completions.keys())].  Python lists the keys in the order of
    their first insertion, the finite map in key order; only what does not
    depend on the order is stated about the result. *)

Definition get_all_characters : M (list string) :=
  self <~ get_self;;
  ret ((map_to_list (_completions self)).*1).

(** ** models.py: PropagationEdge.to_label

    [dungeon_short[self.dungeon]] raises [KeyError] on a dungeon without a
    short name. *)

Inductive key_error := KeyError (key : string).

Definition to_label (e : PropagationEdge.t) (dungeon_short : gmap string string)
  : key_error + string :=
  match dungeon_short !! PropagationEdge.dungeon e with
  | Some short => inr (short +:+ "#" +:+ PropagationEdge.run_id e)
  | None => inl (KeyError (PropagationEdge.dungeon e))
  end.

(** ** main.py: EdgeSerializer.serialize

    [edge_groups] is a [defaultdict(list)]; its items are listed in the
    order in which their keys were first used, so it is an association list
    here. *)

Record edge_group := {
  group_source : string;
  group_target : string;
  group_labels : list string
}.

(** [edge_groups[key].append(label)]. *)
Fixpoint append_label (key : string * string) (label : string)
    (edge_groups : list ((string * string) * list string))
  : list ((string * string) * list string) :=
  match edge_groups with
  | [] => [(key, [label])]
  | (k, labels) :: rest =>
      if decide (k = key) then (k, labels ++ [label]) :: rest
      else (k, labels) :: append_label key label rest
  end.

(** [for edge in edges], from the edges still to visit. *)
Fixpoint group_edges (edges : list PropagationEdge.t) (dungeon_short : gmap string string)
    (edge_groups : list ((string * string) * list string))
  : key_error + list ((string * string) * list string) :=
  match edges with
  | [] => inr edge_groups
  | edge :: rest =>
      let key := (PropagationEdge.source edge, PropagationEdge.target edge) in
      match to_label edge dungeon_short with
      | inl err => inl err
      | inr label => group_edges rest dungeon_short (append_label key label edge_groups)
      end
  end.

Definition serialize (edges : list PropagationEdge.t) (dungeon_short : gmap string string)
  : key_error + list edge_group :=
  match group_edges edges dungeon_short [] with
  | inl err => inl err
  | inr edge_groups =>
      inr ((λ item : (string * string) * list string,
              {| group_source := item.1.1; group_target := item.1.2;
                 group_labels := item.2 |}) <$> edge_groups)
  end.

(** ** main.py: AnalysisOrchestrator

    [self.config.resi_key_level], [self.config.max_level] and
    [self.dungeons] are arguments here. *)

Definition _find_resilient_timestamps (resi_key_level : Z) (dungeons : list string)
    (characters : list string) : M (gmap string string) :=
  for_each characters
    (λ character_id (timestamps : gmap string string),
       date <~ find_resilience_achievement_date character_id resi_key_level dungeons;;
       match date with
       | Some d =>
           if py_not date then ret timestamps
           else ret (<[character_id := d]> timestamps)
       | None => ret timestamps
       end)
    ∅.

Definition _build_propagation_graph (resi_key_level max_level : Z)
    (dungeons : list string) (characters : list string)
    (timestamps : gmap string string) : M edge_lists :=
  build_edges characters timestamps dungeons resi_key_level max_level.

(** ** Vocabulary for the loader, the serializer and the pipeline *)

(** Row [comp] is filed under character [c], dungeon [d] and level [l]. *)
Definition row_key (c d : string) (l : Z) (comp : DungeonCompletion.t) : Prop :=
  DungeonCompletion.character_id comp = c
  ∧ DungeonCompletion.dungeon_name comp = d
  ∧ DungeonCompletion.difficulty_level comp = l.

(** Character [c] has, in each dungeon of [ds], a completion at a level
    [>= lo]. *)
Definition completed_all (self : InMemoryDungeonRepository) (c : string)
    (ds : list string) (lo : Z) : Prop :=
  ∀ d, d ∈ ds → completed_at_least self c d lo.

(** Edge [e] goes from [s] to [t]. *)
Definition joins (s t : string) (e : PropagationEdge.t) : Prop :=
  PropagationEdge.source e = s ∧ PropagationEdge.target e = t.

Global Instance row_key_dec c d l comp : Decision (row_key c d l comp).
Proof. unfold row_key. apply _. Defined.

Global Instance joins_dec s t e : Decision (joins s t e).
Proof. unfold joins. apply _. Defined.

(** What the loop of [serialize] has built after the edges [seen]: one
    item per pair of characters met, holding the labels of the edges between
    them in the order met. *)
Definition groups_of (dungeon_short : gmap string string)
    (seen : list PropagationEdge.t)
    (g : list ((string * string) * list string)) : Prop :=
  NoDup (g.*1)
  ∧ Forall (λ e, ∃ l, to_label e dungeon_short = inr l) seen
  ∧ ∀ k ls, (k, ls) ∈ g ↔
      ls ≠ [] ∧ Forall2 (λ e l, to_label e dungeon_short = inr l)
                        (filter (joins k.1 k.2) seen) ls.

(** Every edge of the list has a dungeon with a short name. *)
Definition all_named (dungeon_short : gmap string string)
    (edges : list PropagationEdge.t) : Prop :=
  Forall (λ e, is_Some (dungeon_short !! PropagationEdge.dungeon e)) edges.

(** The edges and short names of the serializer's unit test. *)
Definition sample_edges : list PropagationEdge.t :=
  [ PropagationEdge.mk "A" "B" "Dungeon1" "run1";
    PropagationEdge.mk "A" "B" "Dungeon2" "run2";
    PropagationEdge.mk "C" "D" "Dungeon1" "run3" ]%string.

Definition sample_short : gmap string string :=
  <["Dungeon1" := "D1"]> (<["Dungeon2" := "D2"]> ∅)%string.

(** The sample season with one more character and one more dungeon. *)
Definition sample_repo_more : InMemoryDungeonRepository :=
  load (sample_rows
          ++ [ DungeonCompletion.mk "D" "d1" 25 "2025-01-01T08:00:00.000Z" "r8";
               DungeonCompletion.mk "A" "d4" 25 "2025-01-01T09:00:00.000Z" "r9" ]%string)
       (sample_roster_rows ++ [ ("r8", "D") ]%string).

(** ** The repository queries only read *)

Section Queries.
Context (self : InMemoryDungeonRepository).

(** The level table the three scanning queries iterate over. *)
Local Abbreviation levels c d :=
  (default (∅ : gmap Z DungeonCompletion.t)
     (default ∅ (_completions self !! c) !! d)).

Lemma stored_levels c d l comp :
  stored self c d l comp ↔ levels c d !! l = Some comp.
Proof.
  unfold stored. split.
  - intros (bd & bl & -> & Hd & Hl). simpl. by rewrite Hd.
  - intros H. destruct (_completions self !! c) as [bd|] eqn:Hc; simpl in H;
      [|by rewrite !lookup_empty in H].
    destruct (bd !! d) as [bl|] eqn:Hd; simpl in H; [|by rewrite lookup_empty in H].
    eauto.
Qed.

Lemma stored_items c d l comp :
  stored self c d l comp ↔ (l, comp) ∈ map_to_list (levels c d).
Proof. by rewrite stored_levels, elem_of_map_to_list. Qed.

Lemma get_completion_eq c d l :
  get_completion c d l self = (inr (levels c d !! l), self).
Proof. reflexivity. Qed.

Lemma get_completion_stored c d l comp :
  get_completion c d l self = (inr (Some comp), self) ↔ stored self c d l comp.
Proof.
  rewrite get_completion_eq, stored_levels. split; [congruence|by intros ->].
Qed.

Lemma get_roster_eq r :
  get_roster r self = (inr (default [] (_rosters self !! r)), self).
Proof. reflexivity. Qed.

Lemma has_higher_completion_spec c d l before :
  ∃ b, has_higher_completion c d l before self = (inr b, self)
       ∧ (b = true ↔
          ∃ l' comp, stored self c d l' comp ∧ l < l'
            ∧ String.ltb (DungeonCompletion.first_completed comp) before = true).
Proof.
  eexists. split; [reflexivity|].
  rewrite existsb_exists. split.
  - intros ([l' comp] & Hin & Hb). apply andb_true_iff in Hb as [Hl Ht].
    exists l', comp. rewrite stored_items.
    split_and!; [by apply list_elem_of_In|lia|done].
  - intros (l' & comp & Hs & Hl & Ht). exists (l', comp). split.
    + apply list_elem_of_In. by apply stored_items.
    + apply andb_true_iff. split; [lia|done].
Qed.

(** *** The inner loop of [get_max_level_by_dungeon] *)

Lemma best_level_from lo hi ts items b0 :
  let b := foldl (best_step lo hi ts) b0 items in
  b0 ≤ b
  ∧ (∀ l comp, (l, comp) ∈ items → lo ≤ l ≤ hi →
       String.ltb (DungeonCompletion.first_completed comp) ts = true → l ≤ b)
  ∧ (b = b0 ∨ ∃ comp, (b, comp) ∈ items ∧ lo ≤ b ≤ hi
       ∧ String.ltb (DungeonCompletion.first_completed comp) ts = true).
Proof.
  revert b0. induction items as [|[l0 c0] items IH]; intros b0; cbn [foldl].
  - split_and!; [lia| |by left]. intros l comp Hin. by apply elem_of_nil in Hin.
  - specialize (IH (best_step lo hi ts b0 (l0, c0))). cbv zeta in IH.
    destruct IH as (Hle & Hub & Hwit).
    assert (Hstep : b0 ≤ best_step lo hi ts b0 (l0, c0)) by (simpl; case_match; lia).
    split_and!.
    + lia.
    + intros l comp Hin Hl Ht. apply elem_of_cons in Hin as [Heq|Hin]; [|eauto].
      injection Heq as -> ->.
      assert (l0 ≤ best_step lo hi ts b0 (l0, c0)); [|lia]. simpl.
      assert ((lo <=? l0) && (l0 <=? hi) = true) as -> by (apply andb_true_iff; lia).
      rewrite Ht. simpl. lia.
    + destruct Hwit as [Hwit|(comp & Hin & Hl & Ht)].
      * rewrite Hwit. simpl.
        destruct ((lo <=? l0) && (l0 <=? hi)
                  && String.ltb (DungeonCompletion.first_completed c0) ts) eqn:Hq;
          [|by left].
        apply andb_true_iff in Hq as [Hq Ht]. apply andb_true_iff in Hq as [Hlo Hhi].
        destruct (Z.max_spec b0 l0) as [[_ ->]|[_ ->]]; [|by left].
        right. exists c0. split_and!; [left|lia|lia|done].
      * right. exists comp. split_and!; [by right|lia|lia|done].
Qed.

Lemma best_level_nonneg lo hi ts items : 0 ≤ best_level lo hi ts items.
Proof. apply (best_level_from lo hi ts items 0). Qed.

Lemma best_level_upper c d lo hi ts l :
  qualifies self c d lo hi ts l →
  l ≤ best_level lo hi ts (map_to_list (levels c d)).
Proof.
  intros (comp & Hs & Hl & Ht).
  apply (best_level_from lo hi ts _ 0) with comp; [by apply stored_items|done..].
Qed.

Lemma best_level_attained c d lo hi ts :
  0 < best_level lo hi ts (map_to_list (levels c d)) →
  qualifies self c d lo hi ts (best_level lo hi ts (map_to_list (levels c d))).
Proof.
  intros Hpos.
  destruct (best_level_from lo hi ts (map_to_list (levels c d)) 0)
    as (_ & _ & [Hz|(comp & Hin & Hl & Ht)]).
  - unfold best_level in Hpos. lia.
  - exists comp. split_and!; [by apply stored_items|apply Hl..|done].
Qed.

Lemma best_level_max c d lo hi ts :
  0 < best_level lo hi ts (map_to_list (levels c d)) →
  max_qualifying self c d lo hi ts (best_level lo hi ts (map_to_list (levels c d))).
Proof.
  intros Hpos. split; [by apply best_level_attained|].
  intros l. apply best_level_upper.
Qed.

Lemma best_level_zero c d lo hi ts :
  (∀ l, ¬ qualifies self c d lo hi ts l) →
  best_level lo hi ts (map_to_list (levels c d)) = 0.
Proof.
  intros Hnone. pose proof (best_level_nonneg lo hi ts (map_to_list (levels c d))).
  destruct (decide (0 < best_level lo hi ts (map_to_list (levels c d)))) as [Hpos|]; [|lia].
  apply best_level_attained in Hpos. by apply Hnone in Hpos.
Qed.

(** *** The outer loop: which dungeons end up in the result *)

Lemma max_levels_lookup c lo hi ts ds (acc : gmap string Z) d :
  foldl (max_level_step (default ∅ (_completions self !! c)) hi lo ts) acc ds !! d
  = if decide (d ∈ ds ∧ 0 < best_level lo hi ts (map_to_list (levels c d)))
    then Some (best_level lo hi ts (map_to_list (levels c d)))
    else acc !! d.
Proof.
  revert acc. induction ds as [|d0 ds IH]; intros acc; cbn [foldl].
  - case_decide as H; [|done]. destruct H as [H _]. by apply elem_of_nil in H.
  - rewrite IH. unfold max_level_step. cbv zeta. destruct (decide (d ∈ ds ∧ _)) as [[Hin Hpos]|Hno].
    + rewrite decide_True; [done|]. split; [by right|done].
    + destruct (decide (d = d0)) as [->|Hne].
      * destruct (0 <? best_level lo hi ts (map_to_list (levels c d0))) eqn:Hb.
        -- rewrite lookup_insert_eq. rewrite decide_True; [done|]. split; [left|lia].
        -- rewrite decide_False; [done|]. intros [_ ?]. lia.
      * rewrite decide_False.
        -- case_match; [by rewrite lookup_insert_ne|done].
        -- intros [Hin Hpos]. apply elem_of_cons in Hin as [?|Hin]; [done|]. tauto.
Qed.

Lemma get_max_level_by_dungeon_spec c ds hi lo ts :
  ∃ m : gmap string Z,
    get_max_level_by_dungeon c ds hi lo ts self = (inr m, self)
    ∧ ∀ d, m !! d =
        if decide (d ∈ ds ∧ 0 < best_level lo hi ts (map_to_list (levels c d)))
        then Some (best_level lo hi ts (map_to_list (levels c d)))
        else None.
Proof.
  eexists. split; [reflexivity|]. intros d. by rewrite max_levels_lookup, lookup_empty.
Qed.

(** *** Python's [min] and the size of the result dictionary *)

Lemma foldl_min_spec (xs : list Z) (x0 : Z) :
  (foldl Z.min x0 xs = x0 ∨ foldl Z.min x0 xs ∈ xs)
  ∧ foldl Z.min x0 xs ≤ x0
  ∧ ∀ x, x ∈ xs → foldl Z.min x0 xs ≤ x.
Proof.
  revert x0. induction xs as [|y xs IH]; intros x0; cbn [foldl].
  - split_and!; [by left|lia|]. intros x Hx. by apply elem_of_nil in Hx.
  - destruct (IH (Z.min x0 y)) as (Hin & Hle & Hall). split_and!.
    + destruct Hin as [->|Hin]; [|right; by right].
      destruct (Z.min_spec x0 y) as [[_ ->]|[_ ->]]; [by left|right; left].
    + lia.
    + intros x Hx. apply elem_of_cons in Hx as [->|Hx]; [lia|by apply Hall].
Qed.

Lemma py_min_spec (xs : list Z) :
  xs ≠ [] → ∃ v, py_min xs = inr v ∧ v ∈ xs ∧ ∀ x, x ∈ xs → v ≤ x.
Proof.
  destruct xs as [|x0 xs]; [done|]. intros _. eexists. split; [reflexivity|].
  destruct (foldl_min_spec xs x0) as (Hin & Hle & Hall). split.
  - destruct Hin as [->|Hin]; [left|by right].
  - intros x Hx. apply elem_of_cons in Hx as [->|Hx]; [done|by apply Hall].
Qed.

Lemma elem_of_values (m : gmap string Z) (v : Z) :
  v ∈ (map_to_list m).*2 ↔ ∃ k, m !! k = Some v.
Proof.
  rewrite list_elem_of_fmap. split.
  - intros ([k v'] & -> & Hin). exists k. by apply elem_of_map_to_list.
  - intros (k & Hk). exists (k, v). split; [done|]. by apply elem_of_map_to_list.
Qed.

Lemma size_list_to_set_le (l : list string) :
  (size (list_to_set l : gset string) ≤ length l)%nat
  ∧ (¬ NoDup l → (size (list_to_set l : gset string) < length l)%nat).
Proof.
  induction l as [|x l [IHle IHlt]]; cbn [list_to_set foldr length].
  - split; [by rewrite size_empty|]. intros H. destruct H. constructor.
  - destruct (decide (x ∈ l)) as [Hin|Hout].
    + assert (Habs : {[x]} ∪ list_to_set l = (list_to_set l : gset string)).
      { apply (elem_of_list_to_set (C := gset string)) in Hin.
        apply set_eq. intros y. rewrite elem_of_union, elem_of_singleton.
        split; [by intros [->|?]|auto]. }
      rewrite Habs. split; [lia|]. intros _. lia.
    + rewrite size_union, size_singleton
        by (apply disjoint_singleton_l; by rewrite elem_of_list_to_set).
      split; [lia|]. intros Hdup.
      assert (Hl : ¬ NoDup l) by (intros Hnd; apply Hdup; by constructor).
      apply IHlt in Hl. lia.
Qed.

(** *** [calculate_resilience_level], one step at a time *)

Lemma calculate_resilience_level_unfold c ts ds hi lo :
  ∃ m : gmap string Z,
    (∀ d, m !! d =
        if decide (d ∈ ds ∧ 0 < best_level lo hi ts (map_to_list (levels c d)))
        then Some (best_level lo hi ts (map_to_list (levels c d)))
        else None)
    ∧ calculate_resilience_level c ts ds hi lo self
      = (if (size m <? length ds)%nat then inr 0 else py_min (map_to_list m).*2, self).
Proof.
  destruct (get_max_level_by_dungeon_spec c ds hi lo ts) as (m & Hrun & Hm).
  exists m. split; [done|].
  unfold calculate_resilience_level, bind. rewrite Hrun.
  by destruct (size m <? length ds)%nat.
Qed.

Lemma resilience_zero_when_short c ts ds hi lo (X : gset string) :
  (size X < length ds)%nat →
  (∀ d, d ∈ ds → 0 < best_level lo hi ts (map_to_list (levels c d)) → d ∈ X) →
  calculate_resilience_level c ts ds hi lo self = (inr 0, self).
Proof.
  intros Hsize Hdom.
  destruct (calculate_resilience_level_unfold c ts ds hi lo) as (m & Hm & ->).
  assert (size m ≤ size X)%nat as Hle.
  { rewrite <- (size_dom (D := gset string)). apply subseteq_size.
    intros d Hd. apply elem_of_dom in Hd as [b Hb]. rewrite Hm in Hb.
    case_decide as Hc; [|done]. destruct Hc. auto. }
  assert (Hlt : (size m <? length ds)%nat = true) by (apply Nat.ltb_lt; lia).
  by rewrite Hlt.
Qed.

Lemma resilience_zero_when_unranked c ts ds hi lo d0 :
  d0 ∈ ds →
  best_level lo hi ts (map_to_list (levels c d0)) = 0 →
  calculate_resilience_level c ts ds hi lo self = (inr 0, self).
Proof.
  intros Hin Hzero.
  apply resilience_zero_when_short with (X := list_to_set ds ∖ {[d0]}).
  - destruct (size_list_to_set_le ds) as [Hle _].
    eapply Nat.lt_le_trans; [|exact Hle].
    apply subset_size. split.
    + apply subseteq_difference_l. done.
    + intros Hsub. specialize (Hsub d0).
      rewrite elem_of_difference, elem_of_list_to_set, elem_of_singleton in Hsub.
      destruct (Hsub Hin) as [_ Hne]. done.
  - intros d Hd Hpos.
    rewrite elem_of_difference, elem_of_list_to_set, elem_of_singleton.
    split; [done|]. intros ->. lia.
Qed.

Lemma resilience_returns c ts ds hi lo :
  ds ≠ [] →
  ∃ v, calculate_resilience_level c ts ds hi lo self = (inr v, self)
       ∧ (v = 0 ∨ lo ≤ v ≤ hi).
Proof.
  intros Hne.
  destruct (calculate_resilience_level_unfold c ts ds hi lo) as (m & Hm & ->).
  destruct (size m <? length ds)%nat eqn:Hsz; [exists 0; auto|].
  apply Nat.ltb_ge in Hsz.
  destruct (py_min_spec (map_to_list m).*2) as (v & -> & Hv & _).
  { intros Hnil. apply (f_equal length) in Hnil.
    rewrite length_fmap, length_map_to_list in Hnil. simpl in Hnil.
    destruct ds; [done|]. simpl in Hsz. lia. }
  exists v. split; [done|]. right.
  apply elem_of_values in Hv as (k & Hk). rewrite Hm in Hk.
  case_decide as Hc; [|done]. injection Hk as <-. destruct Hc as [_ Hpos].
  apply best_level_attained in Hpos as (comp & _ & Hrange & _). exact Hrange.
Qed.

(** *** The order of Python strings *)

Lemma str_le_refl (a : string) : String.leb a a = true.
Proof. apply Is_true_true. apply (reflexivity (R := String.le)). Qed.

Lemma str_le_trans (a b c : string) :
  String.leb a b = true → String.leb b c = true → String.leb a c = true.
Proof.
  intros H1 H2. apply Is_true_true.
  apply (transitivity (R := String.le) (y := b)); by apply Is_true_true.
Qed.

Lemma str_lt_le (a b : string) : String.ltb a b = true → String.leb a b = true.
Proof. unfold String.ltb, String.leb. by destruct (String.compare a b). Qed.

Lemma str_nlt_le (a b : string) : String.ltb a b = false → String.leb b a = true.
Proof.
  unfold String.ltb, String.leb. rewrite (String.compare_antisym b a).
  by destruct (String.compare a b).
Qed.

(** *** The loop of [get_min_completion_date] *)

Lemma earliest_from lo items acc :
  let r := foldl (earliest_step lo) acc items in
  (∀ e, acc = Some e → ∃ t, r = Some t ∧ String.leb t e = true)
  ∧ (r = acc ∨ ∃ l comp, (l, comp) ∈ items ∧ lo ≤ l
                 ∧ r = Some (DungeonCompletion.first_completed comp))
  ∧ (∀ l comp, (l, comp) ∈ items → lo ≤ l →
       ∃ t, r = Some t ∧ String.leb t (DungeonCompletion.first_completed comp) = true).
Proof.
  revert acc. induction items as [|[l0 c0] items IH]; intros acc; cbn [foldl].
  - split_and!.
    + intros e ->. exists e. split; [done|apply str_le_refl].
    + by left.
    + intros l comp Hin. by apply elem_of_nil in Hin.
  - specialize (IH (earliest_step lo acc (l0, c0))). cbv zeta in IH.
    destruct IH as (Hacc & Hwit & Hall).
    set (r := foldl (earliest_step lo) (earliest_step lo acc (l0, c0)) items) in *.
    assert (Hstep : ∀ e, acc = Some e →
              ∃ e', earliest_step lo acc (l0, c0) = Some e' ∧ String.leb e' e = true).
    { intros e ->. simpl. destruct (lo <=? l0); [|exists e; split; [done|apply str_le_refl]].
      destruct (String.ltb (DungeonCompletion.first_completed c0) e) eqn:Hlt.
      - eexists. split; [done|by apply str_lt_le].
      - exists e. split; [done|apply str_le_refl]. }
    assert (Hnew : lo ≤ l0 →
              ∃ e', earliest_step lo acc (l0, c0) = Some e'
                    ∧ String.leb e' (DungeonCompletion.first_completed c0) = true).
    { intros Hl. simpl. assert (Hb : (lo <=? l0) = true) by lia. rewrite Hb.
      destruct acc as [e|]; [|eexists; split; [done|apply str_le_refl]].
      destruct (String.ltb (DungeonCompletion.first_completed c0) e) eqn:Hlt.
      - eexists. split; [done|apply str_le_refl].
      - exists e. split; [done|by apply str_nlt_le]. }
    split_and!.
    + intros e He. destruct (Hstep e He) as (e' & He' & Hle).
      destruct (Hacc e' He') as (t & Ht & Hle'). exists t. split; [done|].
      by apply str_le_trans with e'.
    + destruct Hwit as [Hwit|(l & comp & Hin & Hl & Hr)].
      * rewrite Hwit. simpl. destruct (lo <=? l0) eqn:Hb; [|by left].
        destruct acc as [e|].
        -- destruct (String.ltb (DungeonCompletion.first_completed c0) e); [|by left].
           right. exists l0, c0. split_and!; [left|lia|done].
        -- right. exists l0, c0. split_and!; [left|lia|done].
      * right. exists l, comp. split_and!; [by right|done..].
    + intros l comp Hin Hl. apply elem_of_cons in Hin as [Heq|Hin]; [|eauto].
      injection Heq as -> ->. destruct (Hnew Hl) as (e' & He' & Hle).
      destruct (Hacc e' He') as (t & Ht & Hle'). exists t. split; [done|].
      by apply str_le_trans with e'.
Qed.

Lemma get_min_completion_date_eq c d lo :
  get_min_completion_date c d lo self
  = (inr (foldl (earliest_step lo) None (map_to_list (levels c d))), self).
Proof. reflexivity. Qed.

Lemma earliest_none_iff c d lo :
  foldl (earliest_step lo) None (map_to_list (levels c d)) = None
  ↔ ¬ completed_at_least self c d lo.
Proof.
  destruct (earliest_from lo (map_to_list (levels c d)) None) as (_ & Hwit & Hall).
  cbv zeta in Hwit, Hall. split.
  - intros Hr (l & comp & Hs & Hl). apply stored_items in Hs.
    destruct (Hall l comp Hs Hl) as (t & Ht & _). congruence.
  - intros Hno. destruct Hwit as [Hwit|(l & comp & Hin & Hl & _)]; [done|].
    destruct Hno. exists l, comp. by rewrite stored_items.
Qed.

Lemma earliest_some c d lo t :
  foldl (earliest_step lo) None (map_to_list (levels c d)) = Some t →
  earliest_completion self c d lo t.
Proof.
  destruct (earliest_from lo (map_to_list (levels c d)) None) as (_ & Hwit & Hall).
  cbv zeta in Hwit, Hall. intros Ht. split.
  - destruct Hwit as [Hwit|(l & comp & Hin & Hl & Hr)]; [congruence|].
    exists l, comp. rewrite stored_items. split_and!; [done..|congruence].
  - intros l comp Hs Hl. apply stored_items in Hs.
    destruct (Hall l comp Hs Hl) as (t' & Ht' & Hle). congruence.
Qed.

(** *** Python's [max] on strings, and the day of an ISO timestamp *)

Lemma foldl_max_spec (xs : list string) (x0 : string) :
  let r := foldl (λ best s, if String.ltb best s then s else best) x0 xs in
  (r = x0 ∨ r ∈ xs) ∧ String.leb x0 r = true
  ∧ ∀ x, x ∈ xs → String.leb x r = true.
Proof.
  revert x0. induction xs as [|y xs IH]; intros x0; cbn [foldl].
  - split_and!; [by left|apply str_le_refl|]. intros x Hx. by apply elem_of_nil in Hx.
  - specialize (IH (if String.ltb x0 y then y else x0)). cbv zeta in IH.
    destruct IH as (Hin & Hle & Hall). split_and!.
    + destruct Hin as [->|Hin]; [|right; by right].
      destruct (String.ltb x0 y); [right; left|by left].
    + eapply str_le_trans; [|exact Hle].
      destruct (String.ltb x0 y) eqn:Hlt; [by apply str_lt_le|apply str_le_refl].
    + intros x Hx. apply elem_of_cons in Hx as [->|Hx]; [|by apply Hall].
      eapply str_le_trans; [|exact Hle].
      destruct (String.ltb x0 y) eqn:Hlt; [apply str_le_refl|by apply str_nlt_le].
Qed.

Lemma py_max_spec (xs : list string) :
  xs ≠ [] →
  ∃ t, py_max xs = inr t ∧ t ∈ xs ∧ ∀ x, x ∈ xs → String.leb x t = true.
Proof.
  destruct xs as [|x0 xs]; [done|]. intros _. eexists. split; [reflexivity|].
  destruct (foldl_max_spec xs x0) as (Hin & Hle & Hall). split.
  - destruct Hin as [->|Hin]; [left|by right].
  - intros x Hx. apply elem_of_cons in Hx as [->|Hx]; [done|by apply Hall].
Qed.

Lemma digit_not_T (a : ascii) : is_digit a = true → Ascii.eqb a "T" = false.
Proof.
  intros Hd. destruct (Ascii.eqb_spec a "T") as [->|]; [|done]. discriminate Hd.
Qed.

Lemma iso8601_day (s : string) :
  iso8601 s = true → split_head "T" s = day_of s ∧ s ≠ EmptyString.
Proof.
  intros H. split; [|by intros ->].
  do 11 (destruct s as [|? s]; [discriminate H|]).
  cbn [iso8601 forallb] in H.
  rewrite !andb_true_iff in H. destruct_and!.
  repeat match goal with
    | Hx : Ascii.eqb _ _ = true |- _ => apply Ascii.eqb_eq in Hx; subst
    | Hx : is_digit _ = true |- _ => apply digit_not_T in Hx
    end.
  unfold day_of. cbn [split_head substring].
  repeat match goal with Hx : Ascii.eqb _ _ = false |- _ => rewrite Hx; clear Hx end.
  reflexivity.
Qed.

(** *** The loop of [find_resilience_achievement_date] *)

Lemma find_dates_spec c lo ds dates :
  timestamps_iso self →
  find_dates c lo ds dates self
  = (match mapM (λ d, foldl (earliest_step lo) None (map_to_list (levels c d))) ds with
     | None => inr None
     | Some ts =>
         match py_max (dates ++ ts) with
         | inl e => inl e
         | inr t => inr (Some (split_head "T" t))
         end
     end, self).
Proof.
  intros Hiso. revert dates. induction ds as [|d ds IH]; intros dates.
  - simpl. rewrite app_nil_r. unfold bind, lift_exn. by destruct (py_max dates).
  - cbn [find_dates]. unfold bind at 1. rewrite get_min_completion_date_eq.
    cbn [mapM]. destruct (foldl (earliest_step lo) None _) as [t|] eqn:Ht; [|done].
    assert (Hnot : py_not (Some t) = false).
    { apply earliest_some in Ht as [(l & comp & Hs & _ & <-) _].
      apply Hiso in Hs. apply iso8601_day in Hs as [_ Hne].
      by destruct (DungeonCompletion.first_completed comp). }
    rewrite Hnot, IH. simpl. destruct (mapM _ ds) as [ts|]; [|done]. simpl.
    by rewrite <- app_assoc.
Qed.

End Queries.

(** *** The scans do not depend on the order of the items

    Python visits [dungeon_levels.items()] in insertion order, the finite
    maps here in key order; the three scans give the same answer on any two
    orders. *)

Lemma best_level_le lo hi ts items items' :
  (∀ x, x ∈ items → x ∈ items') →
  best_level lo hi ts items ≤ best_level lo hi ts items'.
Proof.
  intros Hsub.
  destruct (best_level_from lo hi ts items 0) as (_ & _ & Hwit).
  destruct (best_level_from lo hi ts items' 0) as (Hnn & Hub & _).
  cbv zeta in *. fold (best_level lo hi ts items) in *.
  fold (best_level lo hi ts items') in *.
  destruct Hwit as [->|(comp & Hin & Hl & Ht)]; [done|].
  apply (Hub _ comp); [by apply Hsub|done..].
Qed.

Lemma best_level_perm lo hi ts items items' :
  items ≡ₚ items' → best_level lo hi ts items = best_level lo hi ts items'.
Proof.
  intros Hp. apply Z.le_antisymm; apply best_level_le; intros x Hx.
  - by rewrite <- Hp.
  - by rewrite Hp.
Qed.

Lemma earliest_perm lo items items' :
  items ≡ₚ items' →
  foldl (earliest_step lo) None items = foldl (earliest_step lo) None items'.
Proof.
  intros Hp.
  destruct (earliest_from lo items None) as (_ & Hwit & Hall).
  destruct (earliest_from lo items' None) as (_ & Hwit' & Hall').
  cbv zeta in *.
  destruct Hwit as [Hr|(l & comp & Hin & Hl & Hr)].
  - destruct Hwit' as [Hr'|(l' & comp' & Hin' & Hl' & Hr')]; [congruence|].
    rewrite <- Hp in Hin'. destruct (Hall l' comp' Hin' Hl') as (t & Ht & _).
    congruence.
  - destruct Hwit' as [Hr'|(l' & comp' & Hin' & Hl' & Hr')].
    + rewrite Hp in Hin. destruct (Hall' l comp Hin Hl) as (t & Ht & _). congruence.
    + rewrite Hr, Hr'. f_equal. apply String.leb_antisym.
      * rewrite <- Hp in Hin'. destruct (Hall l' comp' Hin' Hl') as (t & Ht & Hle).
        congruence.
      * rewrite Hp in Hin. destruct (Hall' l comp Hin Hl) as (t & Ht & Hle).
        congruence.
Qed.

Lemma existsb_perm {A} (f : A → bool) (xs ys : list A) :
  xs ≡ₚ ys → existsb f xs = existsb f ys.
Proof.
  intros Hp. apply eq_true_iff_eq. rewrite !existsb_exists.
  split; intros (x & Hx & Hf); exists x; (split; [|done]);
    apply list_elem_of_In; apply list_elem_of_In in Hx.
  - by rewrite <- Hp.
  - by rewrite Hp.
Qed.

(** ** The loops of [build_edges] *)

Section Builder.
Context (self : InMemoryDungeonRepository).

(** A loop whose body only appends to the two edge lists and leaves the
    repository alone does the same, and appends what its bodies append. *)
Lemma for_each_appends {A} (body : A → edge_lists → M edge_lists)
    (Pr Pn : A → PropagationEdge.t → Prop) (xs : list A) res non :
  (∀ x res non, x ∈ xs →
     ∃ newr newn,
       body x (res, non) self = (inr (res ++ newr, non ++ newn), self)
       ∧ ∀ e, (e ∈ newr ↔ Pr x e) ∧ (e ∈ newn ↔ Pn x e)) →
  ∃ newr newn,
    for_each xs body (res, non) self = (inr (res ++ newr, non ++ newn), self)
    ∧ ∀ e, (e ∈ newr ↔ ∃ x, x ∈ xs ∧ Pr x e) ∧ (e ∈ newn ↔ ∃ x, x ∈ xs ∧ Pn x e).
Proof.
  revert res non. induction xs as [|x xs IH]; intros res non Hbody.
  - exists [], []. split; [simpl; unfold ret; by rewrite !app_nil_r|].
    intros e. split; (split; [by intros ?%elem_of_nil|]);
      intros (x & Hx & _); by apply elem_of_nil in Hx.
  - destruct (Hbody x res non) as (r1 & n1 & Hrun1 & H1); [left|].
    destruct (IH (res ++ r1) (non ++ n1)) as (r2 & n2 & Hrun2 & H2).
    { intros y res' non' Hy. apply Hbody. by right. }
    exists (r1 ++ r2), (n1 ++ n2). split.
    + cbn [for_each]. unfold bind. rewrite Hrun1, Hrun2. by rewrite !app_assoc.
    + intros e. rewrite !elem_of_app.
      destruct (H1 e) as [-> ->]. destruct (H2 e) as [-> ->].
      split; (split;
        [intros [?|(y & Hy & ?)]; [exists x; split; [left|done]|exists y; split; [by right|done]]
        |intros (y & Hy & ?); apply elem_of_cons in Hy as [->|Hy]; [by left|right; by exists y]]).
Qed.

Lemma roster_body_spec c d comp (isr : bool) ds tl hi o res non :
  ds ≠ [] →
  ∃ newr newn,
    roster_body c d comp isr ds tl hi o (res, non) self
    = (inr (res ++ newr, non ++ newn), self)
    ∧ ∀ e,
        (e ∈ newr ↔ isr = true ∧ candidate_edge self c d comp ds tl hi o e)
        ∧ (e ∈ newn ↔ isr = false ∧ candidate_edge self c d comp ds tl hi o e).
Proof.
  intros Hne. unfold roster_body, candidate_edge.
  destruct (String.eqb_spec o c) as [->|Hoc].
  { exists [], []. split; [unfold ret; by rewrite !app_nil_r|].
    intros e. split; (split; [by intros ?%elem_of_nil|]); by intros (_ & ? & _). }
  destruct (resilience_returns self o (DungeonCompletion.first_completed comp)
              ds hi default_min_level Hne) as (v & Hv & _).
  unfold bind. rewrite Hv. destruct (tl <=? v) eqn:Hle.
  - assert (Hres : resilient_at self o (DungeonCompletion.first_completed comp) ds tl hi)
      by (exists v; split; [done|lia]).
    destruct isr; simpl.
    + eexists [_], []. split; [unfold ret; by rewrite app_nil_r|].
      intros e. rewrite list_elem_of_singleton. split.
      * split; [by intros ->|by intros (_ & _ & -> & _)].
      * split; [by intros ?%elem_of_nil|by intros [? _]].
    + eexists [], [_]. split; [unfold ret; by rewrite app_nil_r|].
      intros e. rewrite list_elem_of_singleton. split.
      * split; [by intros ?%elem_of_nil|by intros [? _]].
      * split; [by intros ->|by intros (_ & _ & -> & _)].
  - exists [], []. split; [unfold ret; by rewrite !app_nil_r|].
    intros e. split; (split; [by intros ?%elem_of_nil|]);
      intros (_ & _ & _ & v' & Hv' & Hle'); rewrite Hv in Hv';
      injection Hv' as <-; lia.
Qed.

Lemma dungeon_body_spec c (isr : bool) ds tl hi d res non :
  d ∈ ds →
  ∃ newr newn,
    dungeon_body c isr ds tl hi d (res, non) self
    = (inr (res ++ newr, non ++ newn), self)
    ∧ ∀ e,
        (e ∈ newr ↔ isr = true ∧ PropagationEdge.target e = c
                     ∧ PropagationEdge.dungeon e = d ∧ emitted self ds tl hi e)
        ∧ (e ∈ newn ↔ isr = false ∧ PropagationEdge.target e = c
                       ∧ PropagationEdge.dungeon e = d ∧ emitted self ds tl hi e).
Proof.
  intros Hd. assert (Hne : ds ≠ []) by (intros ->; by apply elem_of_nil in Hd).
  unfold dungeon_body, bind at 1. rewrite get_completion_eq.
  destruct (_ !! tl) as [comp|] eqn:Hcomp.
  2:{ exists [], []. split; [unfold ret; by rewrite !app_nil_r|].
      intros e. split; (split; [by intros ?%elem_of_nil|]);
        intros (_ & <- & <- & comp & Hs & _); apply stored_levels in Hs; congruence. }
  destruct (has_higher_completion_spec self c d tl
              (DungeonCompletion.first_completed comp)) as (b & Hrun & Hb).
  unfold bind at 1. rewrite Hrun. destruct b.
  { exists [], []. split; [unfold ret; by rewrite !app_nil_r|].
    intros e. split; (split; [by intros ?%elem_of_nil|]);
      intros (_ & <- & <- & comp' & Hs & Hns & _); apply stored_levels in Hs;
      destruct Hns; assert (comp' = comp) as -> by congruence; by apply Hb. }
  unfold bind at 1. rewrite get_roster_eq.
  destruct (for_each_appends
              (roster_body c d comp isr ds tl hi)
              (λ o e, isr = true ∧ candidate_edge self c d comp ds tl hi o e)
              (λ o e, isr = false ∧ candidate_edge self c d comp ds tl hi o e)
              (default [] (_rosters self !! DungeonCompletion.run_id comp)) res non)
    as (newr & newn & Hloop & Hnew).
  { intros o res' non' _. by apply roster_body_spec. }
  exists newr, newn. split; [exact Hloop|].
  assert (Hiff : ∀ e,
    (∃ o, o ∈ default [] (_rosters self !! DungeonCompletion.run_id comp)
          ∧ candidate_edge self c d comp ds tl hi o e)
    ↔ PropagationEdge.target e = c ∧ PropagationEdge.dungeon e = d
      ∧ emitted self ds tl hi e).
  { intros e. split.
    - intros (o & Ho & Hoc & -> & Hr). split_and!; [done..|].
      exists comp. split_and!; simpl; [by apply stored_levels| |done..].
      intros Hsup. apply Hb in Hsup. done.
    - intros (<- & <- & comp' & Hs & _ & Hin & Hst & Hrid & Hr).
      apply stored_levels in Hs. assert (comp' = comp) as -> by congruence.
      exists (PropagationEdge.source e). split; [done|]. split_and!; [done| |done].
      destruct e; simpl in *. by subst. }
  intros e. destruct (Hnew e) as [-> ->]. rewrite <- Hiff.
  split; split.
  - intros (o & Ho & Hi & Hrest). split; [done|]. by exists o.
  - intros (Hi & o & Ho & Hrest). by exists o.
  - intros (o & Ho & Hi & Hrest). split; [done|]. by exists o.
  - intros (Hi & o & Ho & Hrest). by exists o.
Qed.

Lemma character_body_spec (rts : gmap string string) ds tl hi c res non :
  ∃ newr newn,
    character_body rts ds tl hi c (res, non) self
    = (inr (res ++ newr, non ++ newn), self)
    ∧ ∀ e,
        (e ∈ newr ↔ is_Some (rts !! c) ∧ PropagationEdge.target e = c
                     ∧ PropagationEdge.dungeon e ∈ ds ∧ emitted self ds tl hi e)
        ∧ (e ∈ newn ↔ rts !! c = None ∧ PropagationEdge.target e = c
                       ∧ PropagationEdge.dungeon e ∈ ds ∧ emitted self ds tl hi e).
Proof.
  unfold character_body.
  set (isr := bool_decide (is_Some (rts !! c))).
  destruct (for_each_appends
              (dungeon_body c isr ds tl hi)
              (λ d e, isr = true ∧ PropagationEdge.target e = c
                      ∧ PropagationEdge.dungeon e = d ∧ emitted self ds tl hi e)
              (λ d e, isr = false ∧ PropagationEdge.target e = c
                      ∧ PropagationEdge.dungeon e = d ∧ emitted self ds tl hi e)
              ds res non) as (newr & newn & Hloop & Hnew).
  { intros d res' non' Hd. by apply dungeon_body_spec. }
  exists newr, newn. split; [exact Hloop|].
  assert (Ht : isr = true ↔ is_Some (rts !! c)) by apply bool_decide_eq_true.
  assert (Hf : isr = false ↔ rts !! c = None).
  { unfold isr. rewrite bool_decide_eq_false. by rewrite eq_None_not_Some. }
  intros e. destruct (Hnew e) as [-> ->]. rewrite <- Ht, <- Hf. split; split.
  - intros (d & Hd & ? & ? & <- & ?). done.
  - intros (? & ? & ? & ?). by eexists.
  - intros (d & Hd & ? & ? & <- & ?). done.
  - intros (? & ? & ? & ?). by eexists.
Qed.

Lemma build_edges_spec cs (rts : gmap string string) ds tl hi :
  ∃ res non,
    build_edges cs rts ds tl hi self = (inr (res, non), self)
    ∧ ∀ e,
        (e ∈ res ↔ PropagationEdge.target e ∈ cs ∧ PropagationEdge.dungeon e ∈ ds
                    ∧ emitted self ds tl hi e ∧ is_Some (rts !! PropagationEdge.target e))
        ∧ (e ∈ non ↔ PropagationEdge.target e ∈ cs ∧ PropagationEdge.dungeon e ∈ ds
                      ∧ emitted self ds tl hi e ∧ rts !! PropagationEdge.target e = None).
Proof.
  unfold build_edges.
  destruct (for_each_appends
              (character_body rts ds tl hi)
              (λ c e, is_Some (rts !! c) ∧ PropagationEdge.target e = c
                      ∧ PropagationEdge.dungeon e ∈ ds ∧ emitted self ds tl hi e)
              (λ c e, rts !! c = None ∧ PropagationEdge.target e = c
                      ∧ PropagationEdge.dungeon e ∈ ds ∧ emitted self ds tl hi e)
              cs [] []) as (res & non & Hloop & Hnew).
  { intros c res' non' _. apply character_body_spec. }
  exists res, non. split; [exact Hloop|].
  intros e. destruct (Hnew e) as [-> ->]. split; split.
  - intros (c & Hc & ? & <- & ? & ?). done.
  - intros (? & ? & ? & ?). by eexists.
  - intros (c & Hc & ? & <- & ? & ?). done.
  - intros (? & ? & ? & ?). by eexists.
Qed.
End Builder.

(** ** Checking the data-model invariants of a given repository *)

Lemma all_stored_sound P self :
  all_stored P self = true →
  ∀ c d l comp, stored self c d l comp → P l comp = true.
Proof.
  unfold all_stored. intros Hall c d l comp (bd & bl & Hc & Hd & Hl).
  rewrite forallb_forall in Hall.
  apply elem_of_map_to_list, list_elem_of_In, Hall in Hc. simpl in Hc.
  rewrite forallb_forall in Hc.
  apply elem_of_map_to_list, list_elem_of_In, Hc in Hd. simpl in Hd.
  rewrite forallb_forall in Hd.
  apply elem_of_map_to_list, list_elem_of_In, Hd in Hl. exact Hl.
Qed.

Lemma levels_nonnegative_check self :
  all_stored (λ l _, 0 <=? l) self = true → levels_nonnegative self.
Proof.
  intros Hall c d l comp Hs. apply (all_stored_sound _ _ Hall) in Hs. lia.
Qed.

Lemma timestamps_iso_check self :
  all_stored (λ _ comp, iso8601 (DungeonCompletion.first_completed comp)) self = true →
  timestamps_iso self.
Proof. intros Hall c d l comp Hs. by apply (all_stored_sound _ _ Hall) in Hs. Qed.

Lemma qualifies_intro self c d lo hi ts l comp :
  get_completion c d l self = (inr (Some comp), self) →
  (lo <=? l) && (l <=? hi)
    && String.ltb (DungeonCompletion.first_completed comp) ts = true →
  qualifies self c d lo hi ts l.
Proof.
  intros Hs Hb. apply get_completion_stored in Hs.
  apply andb_true_iff in Hb as [Hb Ht]. apply andb_true_iff in Hb as [? ?].
  exists comp. split_and!; [done|lia|lia|done].
Qed.

(** ** ResilienceCalculator.calculate_resilience_level *)

(** C2: a dungeon of the list in which the character has no qualifying
    completion (level within [lo, hi], first completed strictly before the
    query timestamp) forces the result 0, whatever the other dungeons hold. *)
Theorem resilience_zero_if_dungeon_missing self c ts ds hi lo d0 :
  d0 ∈ ds →
  (∀ l, ¬ qualifies self c d0 lo hi ts l) →
  calculate_resilience_level c ts ds hi lo self = (inr 0, self).
Proof.
  intros Hin Hnone. apply resilience_zero_when_unranked with d0; [done|].
  by apply best_level_zero.
Qed.

(** B has no completion of d3: its resilience is 0. *)
Lemma resilience_zero_if_dungeon_missing_witness :
  calculate_resilience_level "B" sample_now sample_dungeons 25 18 sample_repo
  = (inr 0, sample_repo).
Proof.
  apply (resilience_zero_if_dungeon_missing sample_repo "B" sample_now
           sample_dungeons 25 18 "d3").
  - apply (bool_decide_unpack _). vm_compute. exact I.
  - intros l (comp & Hs & _). apply stored_levels in Hs. vm_compute in Hs. discriminate Hs.
Defined.


(** C10: a dungeon list with a repeated name always gives 0, whatever the
    character's completions are: the result dictionary has at most one entry
    per distinct name, fewer than the list has items. *)
Theorem resilience_zero_if_duplicate_dungeon self c ts ds hi lo :
  ¬ NoDup ds →
  calculate_resilience_level c ts ds hi lo self = (inr 0, self).
Proof.
  intros Hdup. apply resilience_zero_when_short with (X := list_to_set ds).
  - by apply size_list_to_set_le.
  - intros d Hd _. by apply elem_of_list_to_set.
Qed.

(** A has qualifying completions of d1 and d2, yet naming d1 twice gives 0. *)
Lemma resilience_zero_if_duplicate_dungeon_witness :
  calculate_resilience_level "A" sample_now ["d1"; "d2"; "d1"] 25 18 sample_repo
  = (inr 0, sample_repo).
Proof.
  apply resilience_zero_if_duplicate_dungeon.
  apply (bool_decide_unpack _). vm_compute. exact I.
Defined.


(** C9: on a non-empty dungeon list the function returns (it does not raise)
    and the value is 0 or lies within [min_level, max_level].  The bound
    [min_level <= max_level] of the claim is not needed. *)
Theorem resilience_level_in_range self c ts ds hi lo :
  ds ≠ [] →
  ∃ v, calculate_resilience_level c ts ds hi lo self = (inr v, self)
       ∧ (v = 0 ∨ lo ≤ v ≤ hi).
Proof. apply resilience_returns. Qed.

Lemma resilience_level_in_range_witness :
  ∃ v, calculate_resilience_level "A" sample_now sample_dungeons 25 18 sample_repo
         = (inr v, sample_repo)
       ∧ (v = 0 ∨ 18 ≤ v ≤ 25).
Proof. apply resilience_level_in_range. discriminate. Defined.


(** C1: on a non-empty duplicate-free dungeon list, when the character has a
    qualifying completion in every dungeon of the list, the function returns
    the least of the per-dungeon highest qualifying levels.  The repository
    obeys the data model (no negative level); [min_level <= max_level]
    follows from the existence of a qualifying level. *)
Theorem resilience_is_min_of_maxima self c ts ds hi lo :
  levels_nonnegative self →
  ds ≠ [] →
  NoDup ds →
  (∀ d, d ∈ ds → ∃ l, qualifies self c d lo hi ts l) →
  ∃ v, calculate_resilience_level c ts ds hi lo self = (inr v, self)
       ∧ min_of_maxima self c ds lo hi ts v.
Proof.
  intros Hnonneg Hne Hnd Hall.
  set (best := λ d, best_level lo hi ts
         (map_to_list (default ∅ (default ∅ (_completions self !! c) !! d)))).
  destruct (decide (Forall (λ d, 0 < best d) ds)) as [Hbest|Hzero].
  - (* every dungeon makes it into the dictionary *)
    rewrite Forall_forall in Hbest.
    destruct (calculate_resilience_level_unfold self c ts ds hi lo) as (m & Hm & ->).
    assert (Hlook : ∀ d, d ∈ ds → m !! d = Some (best d)).
    { intros d Hd. rewrite Hm. rewrite decide_True; [done|]. split; [done|by apply Hbest]. }
    assert (Hsize : size m = length ds).
    { rewrite <- (size_dom (D := gset string)).
      rewrite <- (size_list_to_set (C := gset string) ds Hnd). f_equal.
      apply set_eq. intros d. rewrite elem_of_dom, elem_of_list_to_set. split.
      - intros [b Hb]. rewrite Hm in Hb. case_decide as Hc; [|done]. by destruct Hc.
      - intros Hd. rewrite (Hlook d Hd). eauto. }
    rewrite Hsize, Nat.ltb_irrefl.
    destruct (py_min_spec (map_to_list m).*2) as (v & -> & Hv & Hmin).
    { intros Hnil. apply (f_equal length) in Hnil.
      rewrite length_fmap, length_map_to_list, Hsize in Hnil. by destruct ds. }
    exists v. split; [done|]. split.
    + apply elem_of_values in Hv as (k & Hk). rewrite Hm in Hk.
      case_decide as Hc; [|done]. injection Hk as <-. destruct Hc as [Hk Hpos].
      exists k. split; [done|]. by apply best_level_max.
    + intros d mx Hd [Hq Hub].
      pose proof (best_level_attained self c d lo hi ts (Hbest d Hd)) as Hatt.
      apply Hub in Hatt.
      assert (v ≤ best d); [|unfold best in *; lia].
      apply Hmin. apply elem_of_values. exists d. by apply Hlook.
  - (* some dungeon tops out at level 0: the result is 0, and so is the least *)
    apply not_Forall_Exists in Hzero; [|apply _].
    apply Exists_exists in Hzero as (d0 & Hd0 & Hnpos).
    assert (Hb0 : best d0 = 0).
    { pose proof (best_level_nonneg lo hi ts
        (map_to_list (default ∅ (default ∅ (_completions self !! c) !! d0)))).
      unfold best in *. simpl in Hnpos. lia. }
    exists 0. split; [by apply resilience_zero_when_unranked with d0|]. split.
    + exists d0. split; [done|].
      destruct (Hall d0 Hd0) as (l & Hq).
      pose proof (best_level_upper self c d0 lo hi ts l Hq) as Hup.
      assert (l = 0) as ->.
      { destruct Hq as (comp & Hs & _). apply Hnonneg in Hs. unfold best in Hb0. lia. }
      split; [done|]. intros l' Hq'.
      pose proof (best_level_upper self c d0 lo hi ts l' Hq'). unfold best in Hb0. lia.
    + intros d mx _ [(comp & Hs & _) _]. by apply Hnonneg in Hs.
Qed.

(** A's highest levels are 20, 22 and 20. *)
Lemma resilience_is_min_of_maxima_witness :
  ∃ v, calculate_resilience_level "A" sample_now sample_dungeons 25 18 sample_repo
         = (inr v, sample_repo)
       ∧ min_of_maxima sample_repo "A" sample_dungeons 18 25 sample_now v.
Proof.
  apply resilience_is_min_of_maxima.
  - apply levels_nonnegative_check. vm_compute. reflexivity.
  - discriminate.
  - apply (bool_decide_unpack _). vm_compute. exact I.
  - intros d Hd. unfold sample_dungeons in Hd.
    repeat (apply elem_of_cons in Hd as [->|Hd]); [..|by apply elem_of_nil in Hd].
    + exists 20. eapply qualifies_intro; vm_compute; reflexivity.
    + exists 22. eapply qualifies_intro; vm_compute; reflexivity.
    + exists 20. eapply qualifies_intro; vm_compute; reflexivity.
Defined.


(** ** ResilienceCalculator.find_resilience_achievement_date *)

(** C3: over a repository whose timestamps are ISO 8601 and on a non-empty
    dungeon list, the function returns; it returns [None] exactly when some
    dungeon of the list has no completion at a level [>= min_level], and
    otherwise the day ([YYYY-MM-DD] prefix) of the latest of the per-dungeon
    earliest completion times at such a level. *)
Theorem achievement_date_is_latest_of_earliest self c lo ds :
  timestamps_iso self →
  ds ≠ [] →
  ∃ r, find_resilience_achievement_date c lo ds self = (inr r, self)
       ∧ (r = None ↔ ∃ d, d ∈ ds ∧ ¬ completed_at_least self c d lo)
       ∧ (∀ day, r = Some day →
            ∃ t, latest_of_earliest self c ds lo t ∧ day = day_of t).
Proof.
  intros Hiso Hne. unfold find_resilience_achievement_date.
  rewrite (find_dates_spec self c lo ds [] Hiso). simpl.
  destruct (mapM _ ds) as [ts|] eqn:Hts.
  - apply mapM_Some in Hts.
    assert (Hlen : ts ≠ []).
    { apply Forall2_length in Hts. destruct ts; [by destruct ds|done]. }
    destruct (py_max_spec ts Hlen) as (t & -> & Hin & Hmax).
    assert (Hfrom : ∀ d, d ∈ ds → ∃ t', t' ∈ ts ∧ earliest_completion self c d lo t').
    { intros d Hd. apply list_elem_of_lookup_1 in Hd as [i Hi].
      destruct (Forall2_lookup_l _ _ _ _ _ Hts Hi) as (t' & Hi' & Hf).
      exists t'. split; [by eapply list_elem_of_lookup_2|by apply earliest_some]. }
    assert (Hto : ∃ d, d ∈ ds ∧ earliest_completion self c d lo t).
    { apply list_elem_of_lookup_1 in Hin as [i Hi].
      destruct (Forall2_lookup_r _ _ _ _ _ Hts Hi) as (d & Hi' & Hf).
      exists d. split; [by eapply list_elem_of_lookup_2|by apply earliest_some]. }
    eexists. split; [reflexivity|]. split.
    + split; [done|]. intros (d & Hd & Hno).
      destruct (Hfrom d Hd) as (t' & _ & [(l & comp & Hs & Hl & _) _]).
      destruct Hno. by exists l, comp.
    + intros day [= <-]. exists t. split.
      * split; [done|]. intros d t' Hd [_ Hleast].
        destruct (Hfrom d Hd) as (t'' & Hin'' & [(l & comp & Hs & Hl & Heq) _]).
        apply str_le_trans with t''; [|by apply Hmax].
        rewrite <- Heq. by apply (Hleast l comp).
      * destruct Hto as (d & Hd & [(l & comp & Hs & _ & <-) _]).
        apply Hiso in Hs. by apply iso8601_day in Hs as [-> _].
  - apply mapM_None in Hts. apply Exists_exists in Hts as (d & Hd & Hnone).
    eexists. split; [reflexivity|]. split; [|done].
    split; [|done]. intros _. exists d. split; [done|].
    by apply earliest_none_iff.
Qed.

Lemma achievement_date_is_latest_of_earliest_witness :
  ∃ r, find_resilience_achievement_date "A" 20 sample_dungeons sample_repo
         = (inr r, sample_repo)
       ∧ (r = None ↔ ∃ d, d ∈ sample_dungeons ∧ ¬ completed_at_least sample_repo "A" d 20)
       ∧ (∀ day, r = Some day →
            ∃ t, latest_of_earliest sample_repo "A" sample_dungeons 20 t ∧ day = day_of t).
Proof.
  apply achievement_date_is_latest_of_earliest.
  - apply timestamps_iso_check. vm_compute. reflexivity.
  - discriminate.
Defined.


(** C8 fails as stated: on the sample season, with no dungeon to check, the
    calculator does not return 0 and the date finder does not return [None]. *)
Lemma empty_dungeon_list_counterexample :
  ¬ ((calculate_resilience_level "A" sample_now [] 25 18 sample_repo).1 = inr 0
     ∧ (find_resilience_achievement_date "A" 20 [] sample_repo).1 = inr None).
Proof. intros [H _]. vm_compute in H. discriminate H. Qed.

(** C8, as the code has it: on an empty dungeon list neither function
    returns; [min] and [max] of an empty sequence raise [ValueError], and the
    repository is left as it was. *)
Theorem empty_dungeon_list_raises self c ts hi lo :
  calculate_resilience_level c ts [] hi lo self = (inl ValueError, self)
  ∧ find_resilience_achievement_date c lo [] self = (inl ValueError, self).
Proof. split; reflexivity. Qed.

(** ** PropagationGraphBuilder.build_edges *)

(** C4: for a completion of [d] by [c] at exactly the target level, the
    body of the dungeon loop asks [has_higher_completion], whose answer is
    [True] exactly when the completion is superseded; on [True] it leaves both
    edge lists as they are, otherwise it scans the roster of the completion's
    run for edge candidates. *)
Theorem superseded_completion_is_skipped self c isr ds tl hi d comp edges :
  stored self c d tl comp →
  ∃ skip : bool,
    has_higher_completion c d tl (DungeonCompletion.first_completed comp) self
      = (inr skip, self)
    ∧ (skip = true ↔ superseded self c d tl comp)
    ∧ dungeon_body c isr ds tl hi d edges self
      = if skip then (inr edges, self)
        else for_each (default [] (_rosters self !! DungeonCompletion.run_id comp))
               (roster_body c d comp isr ds tl hi) edges self.
Proof.
  intros Hs. apply stored_levels in Hs.
  destruct (has_higher_completion_spec self c d tl
              (DungeonCompletion.first_completed comp)) as (skip & Hrun & Hskip).
  exists skip. split_and!; [done..|].
  unfold dungeon_body, bind at 1. rewrite get_completion_eq, Hs.
  unfold bind at 1. rewrite Hrun. by destruct skip.
Qed.

(** B's +20 of d2 came after its +22: the completion is stored, and skipped. *)
Lemma superseded_completion_is_skipped_witness :
  ∃ skip : bool,
    has_higher_completion "B" "d2" 20 "2025-02-03T12:00:00.000Z" sample_repo
      = (inr skip, sample_repo)
    ∧ (skip = true ↔
       superseded sample_repo "B" "d2" 20
         (DungeonCompletion.mk "B" "d2" 20 "2025-02-03T12:00:00.000Z" "r7"))
    ∧ dungeon_body "B" false sample_dungeons 20 25 "d2" ([], []) sample_repo
      = if skip then (inr ([], []), sample_repo)
        else for_each (default [] (_rosters sample_repo !! "r7"%string))
               (roster_body "B" "d2"
                  (DungeonCompletion.mk "B" "d2" 20 "2025-02-03T12:00:00.000Z" "r7")
                  false sample_dungeons 20 25)
               ([], []) sample_repo.
Proof.
  apply (superseded_completion_is_skipped sample_repo "B" false sample_dungeons 20 25
           "d2" (DungeonCompletion.mk "B" "d2" 20 "2025-02-03T12:00:00.000Z" "r7")).
  apply stored_levels. vm_compute. reflexivity.
Defined.


(** C5: [build_edges] returns, and an edge is in [resilient_edges] exactly
    when it is emitted and its target is a key of [resilient_timestamps], in
    [non_resilient_edges] exactly when it is emitted and its target is not a
    key.  Emitted means: the target is one of the characters, the dungeon one
    of the dungeons, the target's completion of the dungeon at the target
    level exists and is not superseded, the source is another member of that
    run's roster, and the source's resilience at the completion time over the
    whole dungeon list is at least the target level. *)
Theorem edge_bucket_follows_target self cs (rts : gmap string string) ds tl hi :
  ∃ res non,
    build_edges cs rts ds tl hi self = (inr (res, non), self)
    ∧ ∀ e,
        (e ∈ res ↔ PropagationEdge.target e ∈ cs ∧ PropagationEdge.dungeon e ∈ ds
                    ∧ emitted self ds tl hi e ∧ is_Some (rts !! PropagationEdge.target e))
        ∧ (e ∈ non ↔ PropagationEdge.target e ∈ cs ∧ PropagationEdge.dungeon e ∈ ds
                      ∧ emitted self ds tl hi e ∧ rts !! PropagationEdge.target e = None).
Proof. apply build_edges_spec. Qed.

(** C6: every edge of either list joins two distinct characters, its source
    is on the roster of the edge's run, and that run is the one of the
    target's completion of the edge's dungeon at exactly the target level. *)
Theorem edges_join_distinct_run_mates self cs (rts : gmap string string) ds tl hi :
  ∃ res non,
    build_edges cs rts ds tl hi self = (inr (res, non), self)
    ∧ ∀ e, e ∈ res ++ non →
        PropagationEdge.source e ≠ PropagationEdge.target e
        ∧ PropagationEdge.source e
            ∈ default [] (_rosters self !! PropagationEdge.run_id e)
        ∧ ∃ comp,
            get_completion (PropagationEdge.target e) (PropagationEdge.dungeon e) tl self
              = (inr (Some comp), self)
            ∧ PropagationEdge.run_id e = DungeonCompletion.run_id comp.
Proof.
  destruct (build_edges_spec self cs rts ds tl hi) as (res & non & Hrun & Hmem).
  exists res, non. split; [done|]. intros e He.
  assert (Hem : emitted self ds tl hi e).
  { destruct (Hmem e) as [Hr Hn]. apply elem_of_app in He as [He|He].
    - by apply Hr in He as (_ & _ & ? & _).
    - by apply Hn in He as (_ & _ & ? & _). }
  destruct Hem as (comp & Hs & _ & Hin & Hne & Hrid & _).
  split_and!; [done|by rewrite Hrid|].
  exists comp. split; [by apply get_completion_stored|done].
Qed.

(** C7: a second invocation with the same arguments, on the repository the
    first one leaves behind, returns the same pair of edge lists; no
    invocation raises or changes the repository. *)
Theorem build_edges_repeatable self cs (rts : gmap string string) ds tl hi :
  ∃ res non,
    build_edges cs rts ds tl hi self = (inr (res, non), self)
    ∧ build_edges cs rts ds tl hi (build_edges cs rts ds tl hi self).2
      = (inr (res, non), self).
Proof.
  destruct (build_edges_spec self cs rts ds tl hi) as (res & non & Hrun & _).
  exists res, non. split; [done|]. by rewrite Hrun.
Qed.

(** ** The sample season, run *)

Example sample_resilience :
  (calculate_resilience_level "A" sample_now sample_dungeons 25 18 sample_repo).1 = inr 20
  ∧ (calculate_resilience_level "A" "2025-01-02T00:00:00.000Z" sample_dungeons 25 18
       sample_repo).1 = inr 0.
Proof. split; vm_compute; reflexivity. Qed.

Example sample_achievement_date :
  (find_resilience_achievement_date "A" 20 sample_dungeons sample_repo).1
    = inr (Some "2025-01-03"%string)
  ∧ (find_resilience_achievement_date "B" 20 sample_dungeons sample_repo).1 = inr None.
Proof. split; vm_compute; reflexivity. Qed.

(** A was resilient when B, not a key of the timestamps, broke through in d1:
    the edge from A to B lands in the second list; B's later +20 of d2, in a
    run with A as well, is superseded and yields nothing. *)
Example sample_build_edges :
  (build_edges ["A"; "B"; "C"] {["A" := "2025-01-03"]} sample_dungeons 20 25 sample_repo).1
  = inr ([], [PropagationEdge.mk "A" "B" "d1" "r5"]).
Proof. vm_compute. reflexivity. Qed.

Example empty_characters :
  (build_edges [] {["A" := "2025-01-03"]} sample_dungeons 20 25 sample_repo).1
  = inr ([], []).
Proof. reflexivity. Qed.

(** * Beyond the claimed properties *)

(** ** InMemoryDungeonRepository._load *)

Lemma load_completion_lookup comp
    (m : gmap string (gmap string (gmap Z DungeonCompletion.t))) c d l :
  default ∅ (default ∅ (load_completion comp m !! c) !! d) !! l
  = if decide (row_key c d l comp) then Some comp
    else default ∅ (default ∅ (m !! c) !! d) !! l.
Proof.
  unfold load_completion, row_key.
  destruct (decide (DungeonCompletion.character_id comp = c)) as [<-|Hc].
  - rewrite lookup_insert_eq. simpl.
    destruct (decide (DungeonCompletion.dungeon_name comp = d)) as [<-|Hd].
    + rewrite lookup_insert_eq. simpl.
      destruct (decide (DungeonCompletion.difficulty_level comp = l)) as [<-|Hl].
      * rewrite lookup_insert_eq. by rewrite decide_True.
      * rewrite lookup_insert_ne by done. rewrite decide_False; [done|]. tauto.
    + rewrite lookup_insert_ne by done. rewrite decide_False; [done|]. tauto.
  - rewrite lookup_insert_ne by done. rewrite decide_False; [done|]. tauto.
Qed.

Lemma load_rows_lookup rows
    (m : gmap string (gmap string (gmap Z DungeonCompletion.t))) c d l :
  default ∅ (default ∅ (foldl (λ m comp, load_completion comp m) m rows !! c) !! d) !! l
  = match last (filter (row_key c d l) rows) with
    | Some comp => Some comp
    | None => default ∅ (default ∅ (m !! c) !! d) !! l
    end.
Proof.
  revert m. induction rows as [|comp rows IH]; intros m; [done|].
  cbn [foldl]. rewrite IH, load_completion_lookup, filter_cons.
  destruct (decide (row_key c d l comp)) as [Hk|Hk]; [|done].
  rewrite last_cons. by destruct (last (filter (row_key c d l) rows)).
Qed.

Lemma load_get_completion rows roster_rows c d l :
  get_completion c d l (load rows roster_rows)
  = (inr (last (filter (row_key c d l) rows)), load rows roster_rows).
Proof.
  rewrite get_completion_eq. f_equal. f_equal. unfold load at 1. simpl.
  rewrite load_rows_lookup. rewrite !lookup_empty. simpl. rewrite lookup_empty.
  by destruct (last _).
Qed.

Lemma load_stored rows roster_rows c d l comp :
  stored (load rows roster_rows) c d l comp
  ↔ last (filter (row_key c d l) rows) = Some comp.
Proof.
  rewrite <- get_completion_stored, load_get_completion.
  split; [congruence|by intros ->].
Qed.

Lemma load_stored_row rows roster_rows c d l comp :
  stored (load rows roster_rows) c d l comp →
  comp ∈ rows ∧ row_key c d l comp.
Proof.
  rewrite load_stored. intros Hlast.
  assert (Hin : comp ∈ filter (row_key c d l) rows).
  { destruct (filter (row_key c d l) rows) as [|x xs] using rev_ind; [done|].
    rewrite last_snoc in Hlast. injection Hlast as ->.
    apply elem_of_app. right. left. }
  by apply list_elem_of_filter in Hin as [? ?].
Qed.

(** X1: after loading, the completion found for a character, dungeon and
    level is the last fetched row filed under them, and [None] when no row
    is: a later row replaces an earlier one with the same key. *)
Theorem load_then_get_completion rows roster_rows c d l :
  get_completion c d l (load rows roster_rows)
  = (inr (last (filter (row_key c d l) rows)), load rows roster_rows).
Proof. apply load_get_completion. Qed.

(** X2: every completion the loaded repository stores is one of the fetched
    rows and is filed under its own character, dungeon and level. *)
Theorem load_files_rows_under_their_key rows roster_rows c d l comp :
  stored (load rows roster_rows) c d l comp →
  comp ∈ rows ∧ row_key c d l comp.
Proof. apply load_stored_row. Qed.

Lemma load_files_rows_under_their_key_witness :
  DungeonCompletion.mk "A" "d1" 20 "2025-01-01T12:00:00.000Z" "r1" ∈ sample_rows
  ∧ row_key "A" "d1" 20 (DungeonCompletion.mk "A" "d1" 20 "2025-01-01T12:00:00.000Z" "r1").
Proof.
  apply (load_files_rows_under_their_key sample_rows sample_roster_rows).
  apply stored_levels. vm_compute. reflexivity.
Defined.

(** X3: rows with ISO 8601 timestamps and no negative level load into a
    repository that keeps both invariants. *)
Theorem load_keeps_row_invariants rows roster_rows :
  Forall (λ comp, iso8601 (DungeonCompletion.first_completed comp) = true
                  ∧ 0 ≤ DungeonCompletion.difficulty_level comp) rows →
  timestamps_iso (load rows roster_rows) ∧ levels_nonnegative (load rows roster_rows).
Proof.
  rewrite Forall_forall. intros Hrows. split.
  - intros c d l comp Hs. apply load_stored_row in Hs as [Hin _].
    by apply Hrows in Hin as [? _].
  - intros c d l comp Hs. apply load_stored_row in Hs as [Hin (_ & _ & <-)].
    by apply Hrows in Hin as [_ ?].
Qed.

Lemma load_keeps_row_invariants_witness :
  timestamps_iso sample_repo ∧ levels_nonnegative sample_repo.
Proof.
  apply load_keeps_row_invariants.
  apply (bool_decide_unpack _). vm_compute. exact I.
Defined.

(** *** Rosters *)

Lemma load_roster_rows_lookup rr (temp : gmap string (list string)) r :
  default [] (foldl (λ m row, load_roster_row row m) temp rr !! r)
  = default [] (temp !! r) ++ (filter (λ row : string * string, row.1 = r) rr).*2.
Proof.
  revert temp. induction rr as [|row rr IH]; intros temp.
  - simpl. by rewrite app_nil_r.
  - cbn [foldl]. rewrite IH, filter_cons. unfold load_roster_row.
    destruct (decide (row.1 = r)) as [<-|Hne].
    + rewrite lookup_insert_eq. simpl. by rewrite <- app_assoc.
    + by rewrite lookup_insert_ne.
Qed.

(** X4: the roster of a run, after loading, lists the characters of the
    roster rows of that run in the order the rows were fetched (a character
    as often as it has rows); a run without rows has the empty roster. *)
Theorem load_then_get_roster rows roster_rows r :
  get_roster r (load rows roster_rows)
  = (inr (filter (λ row : string * string, row.1 = r) roster_rows).*2,
     load rows roster_rows).
Proof.
  rewrite get_roster_eq. f_equal. f_equal. unfold load at 1. simpl.
  by rewrite load_roster_rows_lookup, lookup_empty.
Qed.

(** *** Characters *)

Lemma load_rows_dom rows (m : gmap string (gmap string (gmap Z DungeonCompletion.t))) :
  dom (foldl (λ m comp, load_completion comp m) m rows)
  = dom m ∪ list_to_set (DungeonCompletion.character_id <$> rows).
Proof.
  revert m. induction rows as [|comp rows IH]; intros m; simpl.
  - by rewrite union_empty_r_L.
  - rewrite IH. unfold load_completion. rewrite dom_insert_L.
    apply set_eq. intros x. rewrite !elem_of_union, elem_of_singleton. tauto.
Qed.

(** X5: the loaded repository knows exactly the characters that have a row,
    each once. *)
Theorem load_then_get_all_characters rows roster_rows :
  ∃ cs, get_all_characters (load rows roster_rows) = (inr cs, load rows roster_rows)
        ∧ NoDup cs
        ∧ ∀ c, c ∈ cs ↔ ∃ comp, comp ∈ rows ∧ DungeonCompletion.character_id comp = c.
Proof.
  eexists. split; [reflexivity|]. split; [apply NoDup_fst_map_to_list|].
  intros c. unfold load. simpl.
  assert (Hdom : c ∈ (map_to_list
            (foldl (λ m comp, load_completion comp m) ∅ rows)).*1
          ↔ c ∈ dom (foldl (λ m comp, load_completion comp m)
                       (∅ : gmap string (gmap string (gmap Z DungeonCompletion.t))) rows)).
  { rewrite elem_of_dom, list_elem_of_fmap. split.
    - intros ([k v] & -> & Hin). apply elem_of_map_to_list in Hin. by exists v.
    - intros [v Hv]. exists (c, v). split; [done|]. by apply elem_of_map_to_list. }
  rewrite Hdom, load_rows_dom, dom_empty_L, union_empty_l_L, elem_of_list_to_set,
    list_elem_of_fmap.
  split; intros (comp & ? & ?); by exists comp.
Qed.

(** ** More about the resilience calculator *)

Lemma str_lt_le_trans (a b c : string) :
  String.ltb a b = true → String.leb b c = true → String.ltb a c = true.
Proof.
  intros Hab Hbc. destruct (String.ltb a c) eqn:Hac; [done|].
  apply str_nlt_le in Hac. pose proof (str_le_trans _ _ _ Hbc Hac) as Hba.
  unfold String.ltb in Hab. unfold String.leb in Hba.
  rewrite (String.compare_antisym b a) in Hba.
  by destruct (String.compare a b).
Qed.

Lemma str_le_lt_trans (a b c : string) :
  String.leb a b = true → String.ltb b c = true → String.ltb a c = true.
Proof.
  intros Hab Hbc. destruct (String.ltb a c) eqn:Hac; [done|].
  apply str_nlt_le in Hac. pose proof (str_le_trans _ _ _ Hac Hab) as Hcb.
  unfold String.ltb in Hbc. unfold String.leb in Hcb.
  rewrite (String.compare_antisym c b) in Hcb.
  by destruct (String.compare b c).
Qed.

Lemma substring_prefix_mono (n : nat) (a b : string) :
  String.leb a b = true → String.leb (substring 0 n a) (substring 0 n b) = true.
Proof.
  unfold String.leb. revert a b. induction n as [|n IH]; intros a b.
  - by destruct a, b.
  - destruct a as [|x a], b as [|y b]; simpl; [done..|].
    destruct (Ascii.compare x y); [apply IH|done..].
Qed.

Section Calculator.
Context (self : InMemoryDungeonRepository).

Local Abbreviation levels c d :=
  (default (∅ : gmap Z DungeonCompletion.t)
     (default ∅ (_completions self !! c) !! d)).

Lemma best_level_widen c d lo hi ts lo' hi' ts' :
  lo' ≤ lo → hi ≤ hi' → String.leb ts ts' = true →
  best_level lo hi ts (map_to_list (levels c d))
  ≤ best_level lo' hi' ts' (map_to_list (levels c d)).
Proof.
  intros Hlo Hhi Hts.
  pose proof (best_level_nonneg lo' hi' ts' (map_to_list (levels c d))) as Hnn.
  destruct (decide (0 < best_level lo hi ts (map_to_list (levels c d)))) as [Hpos|]; [|lia].
  apply best_level_attained in Hpos as (comp & Hs & Hl & Ht).
  apply (best_level_upper self). exists comp. split_and!; [done|lia|lia|].
  by apply str_lt_le_trans with ts.
Qed.

Lemma resilience_zero_when_repeated c ts ds hi lo :
  ¬ NoDup ds → calculate_resilience_level c ts ds hi lo self = (inr 0, self).
Proof.
  intros Hdup. apply resilience_zero_when_short with (X := list_to_set ds).
  - by apply size_list_to_set_le.
  - intros d Hd _. by apply elem_of_list_to_set.
Qed.

Lemma resilience_when_ranked c ts ds hi lo :
  ds ≠ [] → NoDup ds →
  (∀ d, d ∈ ds → 0 < best_level lo hi ts (map_to_list (levels c d))) →
  ∃ v, calculate_resilience_level c ts ds hi lo self = (inr v, self)
       ∧ (∃ d, d ∈ ds ∧ v = best_level lo hi ts (map_to_list (levels c d)))
       ∧ ∀ d, d ∈ ds → v ≤ best_level lo hi ts (map_to_list (levels c d)).
Proof.
  intros Hne Hnd Hbest.
  destruct (calculate_resilience_level_unfold self c ts ds hi lo) as (m & Hm & ->).
  assert (Hlook : ∀ d, d ∈ ds →
            m !! d = Some (best_level lo hi ts (map_to_list (levels c d)))).
  { intros d Hd. rewrite Hm. rewrite decide_True; [done|]. split; [done|by apply Hbest]. }
  assert (Hsize : size m = length ds).
  { rewrite <- (size_dom (D := gset string)).
    rewrite <- (size_list_to_set (C := gset string) ds Hnd). f_equal.
    apply set_eq. intros d. rewrite elem_of_dom, elem_of_list_to_set. split.
    - intros [b Hb]. rewrite Hm in Hb. case_decide as Hc; [|done]. by destruct Hc.
    - intros Hd. rewrite (Hlook d Hd). eauto. }
  rewrite Hsize, Nat.ltb_irrefl.
  destruct (py_min_spec (map_to_list m).*2) as (v & -> & Hv & Hmin).
  { intros Hnil. apply (f_equal length) in Hnil.
    rewrite length_fmap, length_map_to_list, Hsize in Hnil. by destruct ds. }
  exists v. split; [done|]. split.
  - apply elem_of_values in Hv as (k & Hk). rewrite Hm in Hk.
    case_decide as Hc; [|done]. injection Hk as <-. destruct Hc as [Hk Hpos]. eauto.
  - intros d Hd. apply Hmin. apply elem_of_values. exists d. by apply Hlook.
Qed.

Lemma unranked_dungeon c ts ds hi lo :
  ¬ Forall (λ d, 0 < best_level lo hi ts (map_to_list (levels c d))) ds →
  ∃ d, d ∈ ds ∧ best_level lo hi ts (map_to_list (levels c d)) = 0.
Proof.
  intros Hno. apply not_Forall_Exists in Hno; [|apply _].
  apply Exists_exists in Hno as (d & Hd & Hnpos). exists d. split; [done|].
  pose proof (best_level_nonneg lo hi ts (map_to_list (levels c d))).
  simpl in Hnpos. lia.
Qed.

(** X6: asking later, or with a wider level window, never lowers the
    resilience level. *)
Theorem resilience_grows_with_time_and_window c ds lo hi ts lo' hi' ts' :
  ds ≠ [] → lo' ≤ lo → hi ≤ hi' → String.leb ts ts' = true →
  ∃ v v',
    calculate_resilience_level c ts ds hi lo self = (inr v, self)
    ∧ calculate_resilience_level c ts' ds hi' lo' self = (inr v', self)
    ∧ v ≤ v'.
Proof.
  intros Hne Hlo Hhi Hts.
  destruct (decide (NoDup ds)) as [Hnd|Hdup].
  2:{ exists 0, 0. split_and!; [by apply resilience_zero_when_repeated..|done]. }
  destruct (decide (Forall (λ d, 0 < best_level lo' hi' ts'
                                      (map_to_list (levels c d))) ds)) as [Hall'|Hno'].
  - rewrite Forall_forall in Hall'.
    destruct (resilience_when_ranked c ts' ds hi' lo' Hne Hnd Hall')
      as (v' & Hrun' & (d0 & Hd0 & Hv') & Hmin').
    destruct (decide (Forall (λ d, 0 < best_level lo hi ts
                                        (map_to_list (levels c d))) ds)) as [Hall|Hno].
    + rewrite Forall_forall in Hall.
      destruct (resilience_when_ranked c ts ds hi lo Hne Hnd Hall)
        as (v & Hrun & _ & Hmin).
      exists v, v'. split_and!; [done..|].
      specialize (Hmin d0 Hd0).
      pose proof (best_level_widen c d0 lo hi ts lo' hi' ts' Hlo Hhi Hts). lia.
    + apply unranked_dungeon in Hno as (d & Hd & Hz).
      exists 0, v'. split_and!; [by apply resilience_zero_when_unranked with d|done|].
      specialize (Hall' d0 Hd0). lia.
  - apply unranked_dungeon in Hno' as (d & Hd & Hz').
    pose proof (best_level_widen c d lo hi ts lo' hi' ts' Hlo Hhi Hts) as Hw.
    pose proof (best_level_nonneg lo hi ts (map_to_list (levels c d))).
    exists 0, 0. split_and!; [|by apply resilience_zero_when_unranked with d|done].
    apply resilience_zero_when_unranked with d; [done|lia].
Qed.

Lemma resilience_nonzero_ranked c ts ds hi lo v :
  calculate_resilience_level c ts ds hi lo self = (inr v, self) → v ≠ 0 →
  ds ≠ [] ∧ ∀ d, d ∈ ds → qualifies self c d lo hi ts
                            (best_level lo hi ts (map_to_list (levels c d)))
                          ∧ v ≤ best_level lo hi ts (map_to_list (levels c d)).
Proof.
  intros Hrun Hv.
  assert (Hne : ds ≠ []) by (intros ->; discriminate Hrun). split; [done|].
  destruct (decide (NoDup ds)) as [Hnd|Hdup].
  2:{ rewrite (resilience_zero_when_repeated c ts ds hi lo Hdup) in Hrun. congruence. }
  destruct (decide (Forall (λ d, 0 < best_level lo hi ts
                                      (map_to_list (levels c d))) ds)) as [Hall|Hno].
  - rewrite Forall_forall in Hall.
    destruct (resilience_when_ranked c ts ds hi lo Hne Hnd Hall) as (v' & Hrun' & _ & Hmin).
    assert (v' = v) as -> by congruence.
    intros d Hd. split; [apply best_level_attained; by apply Hall|by apply Hmin].
  - apply unranked_dungeon in Hno as (d & Hd & Hz).
    rewrite (resilience_zero_when_unranked self c ts ds hi lo d Hd Hz) in Hrun. congruence.
Qed.

Lemma find_date_cases c lo ds :
  timestamps_iso self → ds ≠ [] →
  (find_resilience_achievement_date c lo ds self = (inr None, self)
   ∧ ∃ d, d ∈ ds ∧ ¬ completed_at_least self c d lo)
  ∨ (completed_all self c ds lo
     ∧ ∃ t, find_resilience_achievement_date c lo ds self = (inr (Some (day_of t)), self)
            ∧ latest_of_earliest self c ds lo t
            ∧ iso8601 t = true).
Proof.
  intros Hiso Hne. unfold find_resilience_achievement_date.
  rewrite (find_dates_spec self c lo ds [] Hiso). simpl.
  destruct (mapM _ ds) as [ts|] eqn:Hts.
  - right. apply mapM_Some in Hts.
    assert (Hlen : ts ≠ []).
    { apply Forall2_length in Hts. destruct ts; [by destruct ds|done]. }
    destruct (py_max_spec ts Hlen) as (t & -> & Hin & Hmax).
    assert (Hfrom : ∀ d, d ∈ ds → ∃ t', t' ∈ ts ∧ earliest_completion self c d lo t').
    { intros d Hd. apply list_elem_of_lookup_1 in Hd as [i Hi].
      destruct (Forall2_lookup_l _ _ _ _ _ Hts Hi) as (t' & Hi' & Hf).
      exists t'. split; [by eapply list_elem_of_lookup_2|by apply earliest_some]. }
    assert (Hto : ∃ d, d ∈ ds ∧ earliest_completion self c d lo t).
    { apply list_elem_of_lookup_1 in Hin as [i Hi].
      destruct (Forall2_lookup_r _ _ _ _ _ Hts Hi) as (d & Hi' & Hf).
      exists d. split; [by eapply list_elem_of_lookup_2|by apply earliest_some]. }
    assert (Ht : iso8601 t = true).
    { destruct Hto as (d & _ & [(l & comp & Hs & _ & <-) _]). by apply Hiso in Hs. }
    split.
    + intros d Hd. destruct (Hfrom d Hd) as (t' & _ & [(l & comp & Hs & Hl & _) _]).
      by exists l, comp.
    + exists t. split_and!; [|split; [done|]|done].
      * by destruct (iso8601_day t Ht) as [-> _].
      * intros d t' Hd [_ Hleast].
        destruct (Hfrom d Hd) as (t'' & Hin'' & [(l & comp & Hs & Hl & Heq) _]).
        apply str_le_trans with t''; [|by apply Hmax].
        rewrite <- Heq. by apply (Hleast l comp).
  - left. split; [done|].
    apply mapM_None in Hts. apply Exists_exists in Hts as (d & Hd & Hnone).
    exists d. split; [done|]. by apply earliest_none_iff.
Qed.

End Calculator.

Lemma resilience_grows_with_time_and_window_witness :
  ∃ v v',
    calculate_resilience_level "A" "2025-01-02T12:30:00.000Z" sample_dungeons 21 20
      sample_repo = (inr v, sample_repo)
    ∧ calculate_resilience_level "A" sample_now sample_dungeons 25 18 sample_repo
      = (inr v', sample_repo)
    ∧ v ≤ v'.
Proof.
  apply resilience_grows_with_time_and_window;
    [discriminate|lia|lia|vm_compute; reflexivity].
Defined.

(** X7: a character with a non-zero resilience level at some time has an
    achievement date at threshold [min_level], and the timestamp that date
    is the day of lies strictly before that time. *)
Theorem resilient_has_achievement_date self c ts ds hi lo v :
  timestamps_iso self →
  calculate_resilience_level c ts ds hi lo self = (inr v, self) →
  v ≠ 0 →
  ∃ t, find_resilience_achievement_date c lo ds self = (inr (Some (day_of t)), self)
       ∧ latest_of_earliest self c ds lo t
       ∧ String.ltb t ts = true.
Proof.
  intros Hiso Hrun Hv.
  destruct (resilience_nonzero_ranked self c ts ds hi lo v Hrun Hv) as [Hne Hq].
  destruct (find_date_cases self c lo ds Hiso Hne)
    as [(_ & d & Hd & Hno)|(_ & t & Hfind & Hlat & _)].
  - destruct Hno. destruct (Hq d Hd) as [(comp & Hs & Hl & _) _].
    eexists _, comp. split; [exact Hs|lia].
  - exists t. split_and!; [done..|].
    destruct Hlat as [(d & Hd & _ & Hleast) _].
    destruct (Hq d Hd) as [(comp & Hs & Hl & Ht) _].
    apply str_le_lt_trans with (DungeonCompletion.first_completed comp); [|done].
    apply (Hleast _ comp Hs). lia.
Qed.

Lemma resilient_has_achievement_date_witness :
  ∃ t, find_resilience_achievement_date "A" 18 sample_dungeons sample_repo
         = (inr (Some (day_of t)), sample_repo)
       ∧ latest_of_earliest sample_repo "A" sample_dungeons 18 t
       ∧ String.ltb t sample_now = true.
Proof.
  apply (resilient_has_achievement_date sample_repo "A" sample_now sample_dungeons 25 18 20).
  - apply timestamps_iso_check. vm_compute. reflexivity.
  - vm_compute. reflexivity.
  - discriminate.
Defined.

(** X8: lowering the threshold never loses an achievement date and never
    makes it later. *)
Theorem achievement_date_grows_with_level self c lo lo' ds day' :
  timestamps_iso self →
  lo ≤ lo' →
  find_resilience_achievement_date c lo' ds self = (inr (Some day'), self) →
  ∃ day, find_resilience_achievement_date c lo ds self = (inr (Some day), self)
         ∧ String.leb day day' = true.
Proof.
  intros Hiso Hlo Hrun'.
  assert (Hne : ds ≠ []) by (intros ->; discriminate Hrun').
  destruct (find_date_cases self c lo' ds Hiso Hne)
    as [(Hnone & _)|(Hall' & t' & Hfind' & [_ Hlatest'] & _)]; [congruence|].
  assert (day' = day_of t') as -> by congruence.
  destruct (find_date_cases self c lo ds Hiso Hne)
    as [(_ & d & Hd & Hno)|(_ & t & Hfind & [(d & Hd & _ & Hleast) _] & _)].
  - destruct Hno. destruct (Hall' d Hd) as (l & comp & Hs & Hl).
    exists l, comp. split; [done|lia].
  - exists (day_of t). split; [done|]. apply substring_prefix_mono.
    destruct (foldl (earliest_step lo') None
                (map_to_list (default ∅ (default ∅ (_completions self !! c) !! d))))
      as [t''|] eqn:Ht''.
    + apply earliest_some in Ht''. pose proof (Hlatest' d t'' Hd Ht'') as Hle.
      destruct Ht'' as [(l & comp & Hs & Hl & <-) _].
      eapply str_le_trans; [|exact Hle]. apply (Hleast l comp Hs). lia.
    + apply earliest_none_iff in Ht''. destruct Ht''. by apply Hall'.
Qed.

Lemma achievement_date_grows_with_level_witness :
  ∃ day, find_resilience_achievement_date "A" 18 sample_dungeons sample_repo
           = (inr (Some day), sample_repo)
         ∧ String.leb day "2025-01-03" = true.
Proof.
  apply (achievement_date_grows_with_level sample_repo "A" 18 20 sample_dungeons).
  - apply timestamps_iso_check. vm_compute. reflexivity.
  - lia.
  - vm_compute. reflexivity.
Defined.

(** ** AnalysisOrchestrator *)

Lemma day_of_iso_truthy (t : string) :
  iso8601 t = true → py_not (Some (day_of t)) = false.
Proof.
  intros H. do 11 (destruct t as [|? t]; [discriminate H|]). reflexivity.
Qed.

Section Orchestrator.
Context (self : InMemoryDungeonRepository).

Lemma find_date_cases_value c lo ds :
  timestamps_iso self → ds ≠ [] →
  ∃ r, find_resilience_achievement_date c lo ds self = (inr r, self)
       ∧ (is_Some r ↔ completed_all self c ds lo)
       ∧ ∀ day, r = Some day → py_not (Some day) = false.
Proof.
  intros Hiso Hne.
  destruct (find_date_cases self c lo ds Hiso Hne)
    as [(Hfind & d & Hd & Hno)|(Hall & t & Hfind & _ & Ht)].
  - exists None. split_and!; [done| |done].
    split; [by intros [? ?]|]. intros Hall. destruct Hno. by apply Hall.
  - exists (Some (day_of t)). split_and!; [done|by split|].
    intros day [= <-]. by apply day_of_iso_truthy.
Qed.

Lemma find_resilient_timestamps_loop lo ds cs (acc : gmap string string) :
  timestamps_iso self → ds ≠ [] →
  ∃ rts,
    for_each cs
      (λ character_id (timestamps : gmap string string),
         date <~ find_resilience_achievement_date character_id lo ds;;
         match date with
         | Some d =>
             if py_not date then ret timestamps
             else ret (<[character_id := d]> timestamps)
         | None => ret timestamps
         end) acc self = (inr rts, self)
    ∧ ∀ c r, find_resilience_achievement_date c lo ds self = (inr r, self) →
        rts !! c = if decide (c ∈ cs) then
                     match r with Some d => Some d | None => acc !! c end
                   else acc !! c.
Proof.
  intros Hiso Hne. revert acc. induction cs as [|c0 cs IH]; intros acc.
  - exists acc. split; [done|]. intros c r _. rewrite decide_False; [done|].
    apply not_elem_of_nil.
  - destruct (find_date_cases_value c0 lo ds Hiso Hne) as (r0 & Hrun0 & _ & Htruthy).
    cbn [for_each]. unfold bind at 1. unfold bind at 1. rewrite Hrun0.
    destruct r0 as [d0|].
    + rewrite (Htruthy d0 eq_refl). unfold ret at 1.
      destruct (IH (<[c0 := d0]> acc)) as (rts & Hrun & Hrts).
      exists rts. split; [done|]. intros c r Hr. rewrite (Hrts c r Hr).
      destruct (decide (c = c0)) as [->|Hc].
      * assert (r = Some d0) as -> by congruence.
        rewrite (decide_True (P := c0 ∈ c0 :: cs)) by left.
        rewrite lookup_insert_eq. by case_decide.
      * rewrite lookup_insert_ne by done.
        destruct (decide (c ∈ cs)) as [Hin|Hout].
        -- rewrite decide_True; [done|by right].
        -- rewrite decide_False; [done|]. intros Hin.
           apply elem_of_cons in Hin as [?|?]; done.
    + unfold ret at 1.
      destruct (IH acc) as (rts & Hrun & Hrts).
      exists rts. split; [done|]. intros c r Hr. rewrite (Hrts c r Hr).
      destruct (decide (c ∈ cs)) as [Hin|Hout].
      * rewrite decide_True; [done|by right].
      * destruct (decide (c = c0)) as [->|Hc].
        -- assert (r = None) as -> by congruence.
           by rewrite (decide_True (P := c0 ∈ c0 :: cs)) by left.
        -- rewrite decide_False; [done|]. intros Hin.
           apply elem_of_cons in Hin as [?|?]; done.
Qed.

Lemma find_resilient_timestamps_spec lo ds cs :
  timestamps_iso self → ds ≠ [] →
  ∃ rts,
    _find_resilient_timestamps lo ds cs self = (inr rts, self)
    ∧ (∀ c, c ∈ cs →
         find_resilience_achievement_date c lo ds self = (inr (rts !! c), self))
    ∧ (∀ c, is_Some (rts !! c) ↔ c ∈ cs ∧ completed_all self c ds lo).
Proof.
  intros Hiso Hne.
  destruct (find_resilient_timestamps_loop lo ds cs ∅ Hiso Hne) as (rts & Hrun & Hrts).
  exists rts. split; [exact Hrun|].
  assert (Hval : ∀ c, ∃ r, find_resilience_achievement_date c lo ds self = (inr r, self)
             ∧ (is_Some r ↔ completed_all self c ds lo)
             ∧ rts !! c = if decide (c ∈ cs) then r else None).
  { intros c. destruct (find_date_cases_value c lo ds Hiso Hne) as (r & Hr & Hsome & _).
    exists r. split_and!; [done..|]. rewrite (Hrts c r Hr), lookup_empty.
    case_decide; [by destruct r|done]. }
  split.
  - intros c Hc. destruct (Hval c) as (r & Hr & _ & ->). by rewrite decide_True.
  - intros c. destruct (Hval c) as (r & Hr & Hsome & ->). case_decide.
    + rewrite Hsome. tauto.
    + split; [by intros [? ?]|tauto].
Qed.

End Orchestrator.

(** X9: over ISO timestamps and a non-empty dungeon list, the timestamps
    mapping holds, for each listed character, exactly what
    [find_resilience_achievement_date] returns for it, and nothing else: a
    character is a key exactly when it is listed and has completed every
    dungeon at the key level or above. *)
Theorem resilient_timestamps_are_achievement_dates self lo ds cs :
  timestamps_iso self → ds ≠ [] →
  ∃ rts,
    _find_resilient_timestamps lo ds cs self = (inr rts, self)
    ∧ (∀ c, c ∈ cs →
         find_resilience_achievement_date c lo ds self = (inr (rts !! c), self))
    ∧ (∀ c, is_Some (rts !! c) ↔ c ∈ cs ∧ completed_all self c ds lo).
Proof. apply find_resilient_timestamps_spec. Qed.

Lemma resilient_timestamps_are_achievement_dates_witness :
  ∃ rts,
    _find_resilient_timestamps 20 sample_dungeons ["A"; "B"; "C"] sample_repo
      = (inr rts, sample_repo)
    ∧ (∀ c, c ∈ ["A"; "B"; "C"] →
         find_resilience_achievement_date c 20 sample_dungeons sample_repo
           = (inr (rts !! c), sample_repo))
    ∧ (∀ c, is_Some (rts !! c)
            ↔ c ∈ ["A"; "B"; "C"] ∧ completed_all sample_repo c sample_dungeons 20).
Proof.
  apply resilient_timestamps_are_achievement_dates.
  - apply timestamps_iso_check. vm_compute. reflexivity.
  - discriminate.
Defined.

(** X10: without characters the timestamps mapping is empty whatever the
    dungeon list; without dungeons the first character makes the step raise
    [ValueError]. *)
Theorem resilient_timestamps_on_empty_inputs self lo :
  (∀ ds, _find_resilient_timestamps lo ds [] self = (inr ∅, self))
  ∧ (∀ c cs, _find_resilient_timestamps lo [] (c :: cs) self = (inl ValueError, self)).
Proof. split; reflexivity. Qed.

(** ** More about [build_edges] *)

Lemma for_each_app {A S} (body : A → S → M S) (xs ys : list A) (acc : S) self :
  for_each (xs ++ ys) body acc self
  = bind (for_each xs body acc) (for_each ys body) self.
Proof.
  revert acc self. induction xs as [|x xs IH]; intros acc s; [done|].
  simpl. unfold bind. destruct (body x acc s) as [[e|acc'] s']; [done|].
  rewrite IH. done.
Qed.

Section Graph.
Context (self : InMemoryDungeonRepository).

Lemma no_members_nil {A} (l : list A) : (∀ x, x ∉ l) → l = [].
Proof. destruct l as [|x l]; [done|]. intros H. destruct (H x). left. Qed.

Lemma build_edges_nothing cs (rts : gmap string string) ds tl hi :
  (∀ e, ¬ (PropagationEdge.dungeon e ∈ ds ∧ emitted self ds tl hi e)) →
  build_edges cs rts ds tl hi self = (inr ([], []), self).
Proof.
  intros Hnone.
  destruct (build_edges_spec self cs rts ds tl hi) as (res & non & Hrun & Hmem).
  assert (res = []) as ->.
  { apply no_members_nil. intros e He. apply Hmem in He as (_ & ? & ? & _).
    by apply (Hnone e). }
  assert (non = []) as ->; [|done].
  apply no_members_nil. intros e He. apply Hmem in He as (_ & ? & ? & _).
  by apply (Hnone e).
Qed.

Lemma emitted_source_ranked ds tl hi e :
  0 < tl → emitted self ds tl hi e →
  NoDup ds ∧ ∀ d, d ∈ ds → completed_at_least self (PropagationEdge.source e) d tl.
Proof.
  intros Htl (comp & _ & _ & _ & _ & _ & v & Hrun & Hv).
  assert (Hv0 : v ≠ 0) by lia. split.
  - destruct (decide (NoDup ds)) as [|Hdup]; [done|].
    rewrite (resilience_zero_when_repeated self _ _ ds hi default_min_level Hdup) in Hrun.
    congruence.
  - destruct (resilience_nonzero_ranked self _ _ ds hi default_min_level v Hrun Hv0)
      as [_ Hq].
    intros d Hd. destruct (Hq d Hd) as [(comp' & Hs & _ & _) Hle].
    eexists _, comp'. split; [exact Hs|lia].
Qed.

(** Pieces that only append, by the same lists whatever was there before. *)
Lemma for_each_shift {A} (body : A → edge_lists → M edge_lists) (xs : list A) :
  (∀ x, x ∈ xs → ∃ newr newn, ∀ res non,
     body x (res, non) self = (inr (res ++ newr, non ++ newn), self)) →
  ∃ newr newn, ∀ res non,
    for_each xs body (res, non) self = (inr (res ++ newr, non ++ newn), self).
Proof.
  induction xs as [|x xs IH]; intros Hbody.
  - exists [], []. intros res non. simpl. unfold ret. by rewrite !app_nil_r.
  - destruct (Hbody x) as (r1 & n1 & H1); [left|].
    destruct IH as (r2 & n2 & H2).
    { intros y Hy. apply Hbody. by right. }
    exists (r1 ++ r2), (n1 ++ n2). intros res non.
    cbn [for_each]. unfold bind. rewrite H1, H2. by rewrite !app_assoc.
Qed.

Lemma roster_body_shift c d comp (isr : bool) ds tl hi o :
  ds ≠ [] →
  ∃ newr newn, ∀ res non,
    roster_body c d comp isr ds tl hi o (res, non) self
    = (inr (res ++ newr, non ++ newn), self).
Proof.
  intros Hne. unfold roster_body.
  destruct (String.eqb_spec o c) as [->|Hoc].
  { exists [], []. intros. unfold ret. by rewrite !app_nil_r. }
  destruct (resilience_returns self o (DungeonCompletion.first_completed comp)
              ds hi default_min_level Hne) as (v & Hv & _).
  unfold bind. rewrite Hv. destruct (tl <=? v).
  - destruct isr; simpl.
    + eexists [_], []. intros. unfold ret. by rewrite app_nil_r.
    + eexists [], [_]. intros. unfold ret. by rewrite app_nil_r.
  - exists [], []. intros. unfold ret. by rewrite !app_nil_r.
Qed.

Lemma dungeon_body_shift c (isr : bool) ds tl hi d :
  d ∈ ds →
  ∃ newr newn, ∀ res non,
    dungeon_body c isr ds tl hi d (res, non) self
    = (inr (res ++ newr, non ++ newn), self).
Proof.
  intros Hd. assert (Hne : ds ≠ []) by (intros ->; by apply elem_of_nil in Hd).
  unfold dungeon_body, bind at 1. rewrite get_completion_eq.
  destruct (_ !! tl) as [comp|].
  2:{ exists [], []. intros. unfold ret. by rewrite !app_nil_r. }
  destruct (has_higher_completion_spec self c d tl
              (DungeonCompletion.first_completed comp)) as (b & Hrun & _).
  unfold bind at 1. rewrite Hrun. destruct b.
  { exists [], []. intros. unfold ret. by rewrite !app_nil_r. }
  unfold bind at 1. rewrite get_roster_eq.
  apply for_each_shift. intros o _. by apply roster_body_shift.
Qed.

Lemma character_loop_shift cs (rts : gmap string string) ds tl hi :
  ∃ newr newn, ∀ res non,
    for_each cs (character_body rts ds tl hi) (res, non) self
    = (inr (res ++ newr, non ++ newn), self).
Proof.
  apply for_each_shift. intros c _. unfold character_body.
  apply for_each_shift. intros d Hd. by apply dungeon_body_shift.
Qed.

(** X13: the character loop can be split: the edge lists for two character
    lists joined are the edge lists for the first followed by those for the
    second. *)
Theorem build_edges_splits_over_characters cs1 cs2 (rts : gmap string string) ds tl hi :
  ∃ r1 n1 r2 n2,
    build_edges cs1 rts ds tl hi self = (inr (r1, n1), self)
    ∧ build_edges cs2 rts ds tl hi self = (inr (r2, n2), self)
    ∧ build_edges (cs1 ++ cs2) rts ds tl hi self = (inr (r1 ++ r2, n1 ++ n2), self).
Proof.
  destruct (character_loop_shift cs1 rts ds tl hi) as (r1 & n1 & H1).
  destruct (character_loop_shift cs2 rts ds tl hi) as (r2 & n2 & H2).
  exists r1, n1, r2, n2. unfold build_edges. split_and!.
  - by rewrite H1.
  - by rewrite H2.
  - rewrite for_each_app. unfold bind. rewrite H1. simpl. by rewrite H2.
Qed.

Lemma known_character c d l comp :
  stored self c d l comp → c ∈ (map_to_list (_completions self)).*1.
Proof.
  intros (bd & _ & Hc & _). apply list_elem_of_fmap. exists (c, bd).
  split; [done|]. by apply elem_of_map_to_list.
Qed.

(** X11: the orchestrator's steps composed (all characters, their
    timestamps at the key level, the graph at that level), over ISO
    timestamps, a non-empty dungeon list and a positive key level: every
    edge starts at a character with an achievement date; resilient edges end
    at one too, non-resilient edges at one without. *)
Theorem pipeline_edges_start_at_resilient_characters ds tl hi :
  timestamps_iso self → ds ≠ [] → 0 < tl →
  ∃ cs rts res non,
    get_all_characters self = (inr cs, self)
    ∧ _find_resilient_timestamps tl ds cs self = (inr rts, self)
    ∧ _build_propagation_graph tl hi ds cs rts self = (inr (res, non), self)
    ∧ (∀ e, e ∈ res → is_Some (rts !! PropagationEdge.source e)
                      ∧ is_Some (rts !! PropagationEdge.target e))
    ∧ (∀ e, e ∈ non → is_Some (rts !! PropagationEdge.source e)
                      ∧ rts !! PropagationEdge.target e = None).
Proof.
  intros Hiso Hne Htl.
  set (cs := (map_to_list (_completions self)).*1).
  destruct (find_resilient_timestamps_spec self tl ds cs Hiso Hne)
    as (rts & Hfind & _ & Hkeys).
  destruct (build_edges_spec self cs rts ds tl hi) as (res & non & Hrun & Hmem).
  assert (Hsrc : ∀ e, emitted self ds tl hi e →
            is_Some (rts !! PropagationEdge.source e)).
  { intros e Hem. apply Hkeys.
    destruct (emitted_source_ranked ds tl hi e Htl Hem) as [_ Hall].
    split; [|exact Hall]. destruct ds as [|d ds']; [done|].
    destruct (Hall d) as (l & comp & Hs & _); [left|].
    by eapply known_character. }
  exists cs, rts, res, non. split_and!; [done..| |].
  - intros e He. apply Hmem in He as (_ & _ & Hem & Ht). split; [by apply Hsrc|done].
  - intros e He. apply Hmem in He as (_ & _ & Hem & Ht). split; [by apply Hsrc|done].
Qed.

End Graph.

Lemma pipeline_edges_start_at_resilient_characters_witness :
  ∃ cs rts res non,
    get_all_characters sample_repo = (inr cs, sample_repo)
    ∧ _find_resilient_timestamps 20 sample_dungeons cs sample_repo = (inr rts, sample_repo)
    ∧ _build_propagation_graph 20 25 sample_dungeons cs rts sample_repo
      = (inr (res, non), sample_repo)
    ∧ (∀ e, e ∈ res → is_Some (rts !! PropagationEdge.source e)
                      ∧ is_Some (rts !! PropagationEdge.target e))
    ∧ (∀ e, e ∈ non → is_Some (rts !! PropagationEdge.source e)
                      ∧ rts !! PropagationEdge.target e = None).
Proof.
  apply pipeline_edges_start_at_resilient_characters.
  - apply timestamps_iso_check. vm_compute. reflexivity.
  - discriminate.
  - lia.
Defined.

(** X12: a dungeon list that is empty, or that repeats a name while the
    target level is positive, yields no edge at all; [build_edges] does not
    raise on the empty list, it never reaches the calculator. *)
Theorem no_edges_without_proper_dungeon_list self cs (rts : gmap string string) ds tl hi :
  ds = [] ∨ (¬ NoDup ds ∧ 0 < tl) →
  build_edges cs rts ds tl hi self = (inr ([], []), self).
Proof.
  intros Hds. apply build_edges_nothing. intros e [Hd Hem].
  destruct Hds as [->|[Hdup Htl]]; [by apply elem_of_nil in Hd|].
  by destruct (emitted_source_ranked self ds tl hi e Htl Hem) as [? _].
Qed.

Lemma no_edges_without_proper_dungeon_list_witness :
  build_edges ["A"; "B"; "C"] {["A" := "2025-01-03"%string]} ["d1"; "d1"] 20 25 sample_repo
  = (inr ([], []), sample_repo).
Proof.
  apply no_edges_without_proper_dungeon_list. right. split; [|lia].
  apply (bool_decide_unpack _). vm_compute. exact I.
Defined.

(** ** The scanning queries on their own *)

Section Scans.
Context (self : InMemoryDungeonRepository).

Local Abbreviation levels c d :=
  (default (∅ : gmap Z DungeonCompletion.t)
     (default ∅ (_completions self !! c) !! d)).

Lemma max_qualifying_unique c d lo hi ts m m' :
  max_qualifying self c d lo hi ts m → max_qualifying self c d lo hi ts m' → m = m'.
Proof. intros [Hq Hub] [Hq' Hub']. apply Hub in Hq'. apply Hub' in Hq. lia. Qed.

(** X17: the dictionary of [get_max_level_by_dungeon] has an entry for a
    dungeon exactly when the dungeon is listed and the character's highest
    qualifying level in it is positive, and the entry is that level; a
    dungeon without such a completion is absent, not mapped to 0. *)
Theorem max_levels_hold_highest_qualifying_level c ds hi lo ts :
  ∃ m : gmap string Z,
    get_max_level_by_dungeon c ds hi lo ts self = (inr m, self)
    ∧ ∀ d b, m !! d = Some b ↔ d ∈ ds ∧ 0 < b ∧ max_qualifying self c d lo hi ts b.
Proof.
  destruct (get_max_level_by_dungeon_spec self c ds hi lo ts) as (m & Hrun & Hm).
  exists m. split; [done|]. intros d b. rewrite Hm. split.
  - case_decide as Hc; [|done]. intros [= <-]. destruct Hc as [Hd Hpos].
    split_and!; [done..|]. by apply best_level_max.
  - intros (Hd & Hpos & Hmax).
    assert (Hb : 0 < best_level lo hi ts (map_to_list (levels c d))).
    { destruct Hmax as [Hq _]. apply (best_level_upper self) in Hq. lia. }
    rewrite decide_True by done. f_equal.
    apply (max_qualifying_unique c d lo hi ts); [by apply best_level_max|done].
Qed.

(** X18: [get_min_completion_date] returns the earliest first-completion
    time among the character's completions of the dungeon at [min_level] or
    above, and [None] exactly when there is none; no upper level bound
    applies. *)
Theorem min_completion_date_is_earliest c d lo :
  ∃ r, get_min_completion_date c d lo self = (inr r, self)
       ∧ (r = None ↔ ¬ completed_at_least self c d lo)
       ∧ ∀ t, r = Some t ↔ earliest_completion self c d lo t.
Proof.
  eexists. split; [apply get_min_completion_date_eq|]. split; [apply earliest_none_iff|].
  intros t. split; [apply earliest_some|].
  intros Ht. pose proof Ht as [(l & comp & Hs & Hl & <-) Hleast].
  destruct (foldl (earliest_step lo) None (map_to_list (levels c d))) as [t'|] eqn:Hr.
  - apply earliest_some in Hr as [(l' & comp' & Hs' & Hl' & <-) Hleast'].
    f_equal. apply String.leb_antisym; [by apply (Hleast' l comp)|by apply (Hleast l' comp')].
  - apply earliest_none_iff in Hr. destruct Hr. by exists l, comp.
Qed.

(** X19: a completion superseded with respect to a level and a time stays
    superseded with respect to any lower level and any later time. *)
Theorem superseded_stays_superseded c d l l' before before' :
  l' ≤ l → String.leb before before' = true →
  has_higher_completion c d l before self = (inr true, self) →
  has_higher_completion c d l' before' self = (inr true, self).
Proof.
  intros Hl Hb Hrun.
  destruct (has_higher_completion_spec self c d l before) as (b & Hrun1 & Hb1).
  destruct (has_higher_completion_spec self c d l' before') as (b' & Hrun2 & Hb2).
  rewrite Hrun2. f_equal. f_equal. apply Hb2.
  assert (b = true) as -> by congruence.
  destruct Hb1 as [Hb1 _]. destruct (Hb1 eq_refl) as (l0 & comp & Hs & Hl0 & Ht).
  exists l0, comp. split_and!; [done|lia|]. by apply str_lt_le_trans with before.
Qed.

End Scans.

(** X20: the resilience level of a character over a dungeon list depends on
    nothing but that character's completions in the listed dungeons: two
    repositories that agree on them give the same result. *)
Theorem resilience_reads_only_listed_dungeons (self1 self2 : InMemoryDungeonRepository) c ds hi lo ts :
  (∀ d, d ∈ ds →
     default (∅ : gmap Z DungeonCompletion.t)
       (default ∅ (_completions self1 !! c) !! d)
     = default ∅ (default ∅ (_completions self2 !! c) !! d)) →
  (calculate_resilience_level c ts ds hi lo self1).1
  = (calculate_resilience_level c ts ds hi lo self2).1.
Proof.
  intros Hagree.
  destruct (calculate_resilience_level_unfold self1 c ts ds hi lo) as (m1 & Hm1 & ->).
  destruct (calculate_resilience_level_unfold self2 c ts ds hi lo) as (m2 & Hm2 & ->).
  assert (m1 = m2) as ->; [|done].
  apply map_eq. intros d. rewrite Hm1, Hm2.
  destruct (decide (d ∈ ds)) as [Hd|Hd].
  - by rewrite (Hagree d Hd).
  - rewrite !decide_False; [done|tauto..].
Qed.

Lemma superseded_stays_superseded_witness :
  has_higher_completion "B" "d2" 19 sample_now sample_repo = (inr true, sample_repo).
Proof.
  apply (superseded_stays_superseded sample_repo "B" "d2" 20 19
           "2025-02-03T12:00:00.000Z" sample_now).
  - lia.
  - vm_compute. reflexivity.
  - vm_compute. reflexivity.
Defined.

Lemma resilience_reads_only_listed_dungeons_witness :
  (calculate_resilience_level "A" sample_now sample_dungeons 25 18 sample_repo).1
  = (calculate_resilience_level "A" sample_now sample_dungeons 25 18 sample_repo_more).1.
Proof.
  apply resilience_reads_only_listed_dungeons.
  intros d Hd. unfold sample_dungeons in Hd.
  repeat (apply elem_of_cons in Hd as [->|Hd]); [..|by apply elem_of_nil in Hd];
    vm_compute; reflexivity.
Defined.

(** ** [build_edges] and the values of [resilient_timestamps] *)

Lemma for_each_ext {A S} (body1 body2 : A → S → M S) (xs : list A) acc self :
  (∀ x acc s, x ∈ xs → body1 x acc s = body2 x acc s) →
  for_each xs body1 acc self = for_each xs body2 acc self.
Proof.
  revert acc self. induction xs as [|x xs IH]; intros acc s Hext; [done|].
  simpl. unfold bind. rewrite Hext by left.
  destruct (body2 x acc s) as [[e|acc'] s']; [done|].
  apply IH. intros y acc'' s'' Hy. apply Hext. by right.
Qed.

(** X21: [build_edges] reads the keys of [resilient_timestamps] only: two
    mappings with the same keys give the same two edge lists, whatever dates
    they hold. *)
Theorem build_edges_ignores_the_dates self cs (rts1 rts2 : gmap string string) ds tl hi :
  dom rts1 = dom rts2 →
  build_edges cs rts1 ds tl hi self = build_edges cs rts2 ds tl hi self.
Proof.
  intros Hdom. unfold build_edges. apply for_each_ext. intros c acc s _.
  unfold character_body.
  assert (Hb : bool_decide (is_Some (rts1 !! c)) = bool_decide (is_Some (rts2 !! c))).
  { apply bool_decide_ext. by rewrite <- !elem_of_dom, Hdom. }
  by rewrite Hb.
Qed.

Lemma build_edges_ignores_the_dates_witness :
  build_edges ["A"; "B"; "C"] {["A" := "2025-01-03"%string]} sample_dungeons 20 25 sample_repo
  = build_edges ["A"; "B"; "C"] {["A" := "never"%string]} sample_dungeons 20 25 sample_repo.
Proof.
  apply build_edges_ignores_the_dates. by rewrite !dom_singleton_L.
Defined.

(** ** EdgeSerializer.serialize *)

#[local] Set Warnings "-clear-no-such-hyp".

Lemma append_label_keys k0 l (g : list ((string * string) * list string)) :
  (append_label k0 l g).*1 = if decide (k0 ∈ g.*1) then g.*1 else g.*1 ++ [k0].
Proof.
  induction g as [|[k ls] g IH]; cbn [append_label].
  - rewrite decide_False; [done|apply not_elem_of_nil].
  - rewrite (fmap_cons fst (k, ls) g). cbn [fst].
    destruct (decide (k = k0)) as [->|Hne].
    + rewrite decide_True; [done|left].
    + rewrite fmap_cons, IH. cbn [fst]. destruct (decide (k0 ∈ g.*1)) as [Hin|Hout].
      * rewrite decide_True; [done|by right].
      * rewrite decide_False; [done|]. intros Hin.
        apply elem_of_cons in Hin as [?|?]; done.
Qed.

Lemma append_label_NoDup k0 l (g : list ((string * string) * list string)) :
  NoDup g.*1 → NoDup (append_label k0 l g).*1.
Proof.
  intros Hnd. rewrite append_label_keys. case_decide; [done|].
  apply NoDup_app. split_and!; [done| |apply NoDup_singleton].
  intros k Hk Hk0. apply list_elem_of_singleton in Hk0 as ->. done.
Qed.

Lemma append_label_elem k0 l (g : list ((string * string) * list string)) k ls :
  NoDup (g.*1) →
  (k, ls) ∈ append_label k0 l g
  ↔ (k ≠ k0 ∧ (k, ls) ∈ g)
    ∨ (k = k0 ∧ ((∃ ls0, (k0, ls0) ∈ g ∧ ls = (ls0 ++ [l]))
                 ∨ ((k0 ∉ g.*1) ∧ ls = [l]))).
Proof.
  induction g as [|[k1 ls1] g IH]; intros Hnd; cbn [append_label].
  - rewrite list_elem_of_singleton.
    assert (Hnil : ∀ x : (string * string) * list string, x ∈ [] ↔ False)
      by (intros x; split; [apply not_elem_of_nil|done]).
    setoid_rewrite Hnil. rewrite fmap_nil.
    pose proof (not_elem_of_nil k0). naive_solver.
  - rewrite fmap_cons in Hnd. cbn [fst] in Hnd.
    apply NoDup_cons in Hnd as [Hk1 Hnd]. specialize (IH Hnd).
    assert (Hkey : ∀ ls', (k1, ls') ∈ g → False).
    { intros ls' Hin. apply Hk1. apply list_elem_of_fmap. by exists (k1, ls'). }
    rewrite fmap_cons. cbn [fst]. setoid_rewrite elem_of_cons.
    destruct (decide (k1 = k0)) as [->|Hne].
    + rewrite elem_of_cons. naive_solver.
    + rewrite elem_of_cons, IH. naive_solver.
Qed.

Section Serializer.
Context (dungeon_short : gmap string string).

Lemma labels_exist (es : list PropagationEdge.t) :
  Forall (λ e, ∃ l, to_label e dungeon_short = inr l) es →
  ∃ ls, Forall2 (λ e l, to_label e dungeon_short = inr l) es ls.
Proof.
  induction 1 as [|e es [l Hl] _ [ls IH]]; [by exists []|].
  exists (l :: ls). by constructor.
Qed.

Lemma groups_of_nil : groups_of dungeon_short [] [].
Proof.
  split_and!; [constructor|constructor|]. intros k ls. split.
  - by intros ?%elem_of_nil.
  - intros [Hne Hall]. rewrite filter_nil in Hall. by apply Forall2_nil_inv_l in Hall.
Qed.

Lemma groups_of_key seen g k :
  groups_of dungeon_short seen g →
  k ∈ g.*1 ↔ filter (joins k.1 k.2) seen ≠ [].
Proof.
  intros (Hnd & Hlab & Hg). split.
  - intros Hin. apply list_elem_of_fmap in Hin as ([k' ls] & -> & Hin).
    apply Hg in Hin as [Hne Hall]. cbn [fst] in *. intros Hnil. rewrite Hnil in Hall.
    by apply Forall2_nil_inv_l in Hall.
  - intros Hne.
    destruct (labels_exist (filter (joins k.1 k.2) seen)) as [ls Hls].
    { apply Forall_forall. intros e He. apply list_elem_of_filter in He as [_ He].
      rewrite Forall_forall in Hlab. by apply Hlab. }
    apply list_elem_of_fmap. exists (k, ls). split; [done|]. apply Hg. split; [|done].
    intros ->. by apply Forall2_nil_inv_r in Hls.
Qed.

Lemma groups_of_step seen g e l :
  groups_of dungeon_short seen g →
  to_label e dungeon_short = inr l →
  groups_of dungeon_short (seen ++ [e])
    (append_label (PropagationEdge.source e, PropagationEdge.target e) l g).
Proof.
  intros Hinv Hl. pose proof Hinv as (Hnd & Hlab & Hg).
  split_and!; [by apply append_label_NoDup| |].
  { apply Forall_app. split; [done|]. constructor; [by exists l|constructor]. }
  intros k ls. rewrite (append_label_elem _ _ _ _ _ Hnd), filter_app, filter_cons, filter_nil.
  set (k0 := (PropagationEdge.source e, PropagationEdge.target e)).
  assert (Hjoin : joins k.1 k.2 e ↔ k = k0).
  { unfold joins, k0. destruct k as [s t]. simpl.
    split; [by intros [-> ->]|by intros [= -> ->]]. }
  pose proof (groups_of_key seen g k0 Hinv) as Hkey.
  destruct (decide (joins k.1 k.2 e)) as [Hk|Hk].
  - apply Hjoin in Hk as ->. split.
    + intros [[? _]|[_ [(ls0 & Hin & ->)|[Hout ->]]]]; [done| |].
      * apply Hg in Hin as [_ Hall]. split; [by destruct ls0|].
        apply Forall2_app; [done|]. by constructor.
      * split; [done|].
        destruct (filter (joins k0.1 k0.2) seen); [|destruct Hout; by apply Hkey].
        by constructor.
    + intros [_ Hall]. right. split; [done|].
      apply Forall2_app_inv_l in Hall as (ls0 & ls1 & Hall0 & Hall1 & ->).
      apply Forall2_cons_inv_l in Hall1 as (l' & ls2 & Hl' & Hnil & ->).
      apply Forall2_nil_inv_l in Hnil as ->.
      assert (l' = l) as -> by congruence.
      destruct ls0 as [|l0 ls0].
      * right. split; [|done]. rewrite Hkey.
        apply Forall2_nil_inv_r in Hall0. rewrite Hall0. intros Hne. by apply Hne.
      * left. exists (l0 :: ls0). split; [|done]. by apply Hg.
  - rewrite app_nil_r. rewrite <- Hg. split.
    + intros [[_ ?]|[-> _]]; [done|]. destruct Hk. by apply Hjoin.
    + intros Hin. left. split; [|done]. intros ->. apply Hk. by apply Hjoin.
Qed.

Lemma group_edges_groups rest seen g g' :
  groups_of dungeon_short seen g →
  group_edges rest dungeon_short g = inr g' →
  groups_of dungeon_short (seen ++ rest) g'.
Proof.
  revert seen g. induction rest as [|e rest IH]; intros seen g Hinv Hrun.
  - injection Hrun as <-. by rewrite app_nil_r.
  - cbn [group_edges] in Hrun.
    destruct (to_label e dungeon_short) as [err|l] eqn:Hl; [done|].
    rewrite (cons_middle e seen rest), app_assoc.
    eapply IH; [|exact Hrun]. by apply groups_of_step.
Qed.

Lemma to_label_named e :
  (∃ l, to_label e dungeon_short = inr l)
  ↔ is_Some (dungeon_short !! PropagationEdge.dungeon e).
Proof.
  unfold to_label. destruct (dungeon_short !! PropagationEdge.dungeon e).
  - split; eauto.
  - split; [by intros [? ?]|by intros [? ?]].
Qed.

Lemma group_edges_result edges g :
  match group_edges edges dungeon_short g with
  | inr _ => all_named dungeon_short edges
  | inl (KeyError d) =>
      ∃ pre e post, edges = pre ++ e :: post
        ∧ all_named dungeon_short pre
        ∧ PropagationEdge.dungeon e = d
        ∧ dungeon_short !! d = None
  end.
Proof.
  revert g. induction edges as [|e edges IH]; intros g; cbn [group_edges].
  - constructor.
  - unfold to_label at 1.
    destruct (dungeon_short !! PropagationEdge.dungeon e) as [short|] eqn:Hd.
    + specialize (IH (append_label (PropagationEdge.source e, PropagationEdge.target e)
                        (short +:+ "#" +:+ PropagationEdge.run_id e) g)).
      destruct (group_edges edges dungeon_short _) as [[d]|g'].
      * destruct IH as (pre & e' & post & -> & Hpre & Hd' & Hnone).
        exists (e :: pre), e', post. split_and!; [done| |done..].
        constructor; [by rewrite Hd|done].
      * constructor; [by rewrite Hd|done].
    + exists [], e, edges. split_and!; [done|constructor|done..].
Qed.

End Serializer.

(** X14: serializing raises [KeyError] exactly at the first edge whose
    dungeon has no short name, with that dungeon as key; it returns when
    every edge's dungeon has one. *)
Theorem serialize_fails_at_first_unnamed_dungeon edges dungeon_short :
  match serialize edges dungeon_short with
  | inr _ => all_named dungeon_short edges
  | inl (KeyError d) =>
      ∃ pre e post, edges = pre ++ e :: post
        ∧ all_named dungeon_short pre
        ∧ PropagationEdge.dungeon e = d
        ∧ dungeon_short !! d = None
  end.
Proof.
  unfold serialize. pose proof (group_edges_result dungeon_short edges []) as H.
  by destruct (group_edges edges dungeon_short []) as [[d]|g].
Qed.

(** X15: in the serialized list no two items have the same source and
    target, and there is an item for a source and a target, with given
    labels, exactly when some edge joins them and the labels are those of
    the edges joining them, in the order of the edge list. *)
Theorem serialize_groups_edges_by_endpoints edges dungeon_short gs :
  serialize edges dungeon_short = inr gs →
  NoDup ((λ item, (group_source item, group_target item)) <$> gs)
  ∧ ∀ s t ls,
      {| group_source := s; group_target := t; group_labels := ls |} ∈ gs
      ↔ ls ≠ [] ∧ Forall2 (λ e l, to_label e dungeon_short = inr l)
                          (filter (joins s t) edges) ls.
Proof.
  unfold serialize. destruct (group_edges edges dungeon_short []) as [err|g] eqn:Hrun; [done|].
  intros [= <-].
  destruct (group_edges_groups dungeon_short edges [] [] g
              (groups_of_nil dungeon_short) Hrun) as (Hnd & _ & Hg).
  simpl in Hg. split.
  - rewrite <- list_fmap_compose.
    rewrite (list_fmap_ext _ fst g); [done|]. by intros i [[s t] ls].
  - intros s t ls. rewrite <- (Hg (s, t) ls), list_elem_of_fmap. split.
    + intros ([[s' t'] ls'] & [= -> -> ->] & Hin). done.
    + intros Hin. by exists ((s, t), ls).
Qed.

Lemma serialize_groups_edges_by_endpoints_witness :
  NoDup ((λ item, (group_source item, group_target item))
           <$> [ {| group_source := "A"; group_target := "B";
                    group_labels := ["D1#run1"; "D2#run2"] |};
                 {| group_source := "C"; group_target := "D";
                    group_labels := ["D1#run3"] |} ]%string)
  ∧ ∀ s t ls,
      {| group_source := s; group_target := t; group_labels := ls |}
        ∈ [ {| group_source := "A"; group_target := "B";
               group_labels := ["D1#run1"; "D2#run2"] |};
            {| group_source := "C"; group_target := "D";
               group_labels := ["D1#run3"] |} ]%string
      ↔ ls ≠ [] ∧ Forall2 (λ e l, to_label e sample_short = inr l)
                          (filter (joins s t) sample_edges) ls.
Proof.
  apply (serialize_groups_edges_by_endpoints sample_edges sample_short).
  vm_compute. reflexivity.
Defined.

Lemma append_label_count k0 l (g : list ((string * string) * list string)) :
  sum_list (length <$> (append_label k0 l g).*2) = S (sum_list (length <$> g.*2)).
Proof.
  induction g as [|[k ls] g IH]; cbn [append_label]; [done|].
  destruct (decide (k = k0)) as [->|Hne].
  - rewrite !fmap_cons. cbn [snd sum_list]. rewrite length_app. simpl. lia.
  - rewrite !fmap_cons. cbn [snd sum_list]. rewrite IH. lia.
Qed.

Lemma group_edges_count edges dungeon_short g g' :
  group_edges edges dungeon_short g = inr g' →
  sum_list (length <$> g'.*2) = (sum_list (length <$> g.*2) + length edges)%nat.
Proof.
  revert g. induction edges as [|e edges IH]; intros g Hrun; cbn [group_edges] in Hrun.
  - injection Hrun as <-. simpl. lia.
  - destruct (to_label e dungeon_short) as [err|l]; [done|].
    apply IH in Hrun. rewrite Hrun, append_label_count. simpl. lia.
Qed.

(** X16: serializing loses and repeats nothing: the items hold as many
    labels, all in all, as there are edges. *)
Theorem serialize_keeps_every_label edges dungeon_short gs :
  serialize edges dungeon_short = inr gs →
  sum_list (length ∘ group_labels <$> gs) = length edges.
Proof.
  unfold serialize. destruct (group_edges edges dungeon_short []) as [err|g] eqn:Hrun; [done|].
  intros [= <-]. apply group_edges_count in Hrun. simpl in Hrun. rewrite <- Hrun.
  rewrite <- !list_fmap_compose. done.
Qed.

Lemma serialize_keeps_every_label_witness :
  sum_list (length ∘ group_labels
              <$> [ {| group_source := "A"; group_target := "B";
                       group_labels := ["D1#run1"; "D2#run2"] |};
                    {| group_source := "C"; group_target := "D";
                       group_labels := ["D1#run3"] |} ]%string)
  = length sample_edges.
Proof.
  apply (serialize_keeps_every_label sample_edges sample_short).
  vm_compute. reflexivity.
Defined.
